(** * ScreamingTom: a bounded, polite, single-site crawler

    Shallow embedding of [ScreamingTom.py] and the properties of its crawl
    engine.  Python [str] values are modelled as [string] (characters with
    code points below 256), Python sets of strings as [gset string], the
    integers returned by [int] as [Z].  The outside world (the site's HTTP
    answers, the rendered DOM of each page, the browser launch) is an
    explicit oracle; what the program does to it (requests, navigations,
    sleeps) is recorded in an event trace. *)

From Stdlib Require Import String Ascii List ZArith Lia Bool.
From stdpp Require Import base gmap sets strings list.

Import ListNotations.
Local Open Scope string_scope.
Local Open Scope Z_scope.

(** ** Python string primitives used by the program *)

Module PyStr.

(** [s.startswith(p)] *)
Fixpoint startswith (p s : string) : bool :=
  match p, s with
  | EmptyString, _ => true
  | String a p', String b s' => Ascii.eqb a b && startswith p' s'
  | String _ _, EmptyString => false
  end.

(** [needle in hay] *)
Fixpoint contains (needle hay : string) : bool :=
  startswith needle hay ||
  match hay with
  | EmptyString => false
  | String _ hay' => contains needle hay'
  end.

(** The propositional reading of [needle in hay]. *)
Definition substring_of (needle hay : string) : Prop :=
  exists pre post, hay = (pre ++ needle ++ post)%string.

(** [s.split(sep)] for a one-character separator: never empty. *)
Fixpoint split (sep : ascii) (s : string) : list string :=
  match s with
  | EmptyString => [EmptyString]
  | String a s' =>
      if Ascii.eqb a sep then EmptyString :: split sep s'
      else match split sep s' with
           | h :: t => String a h :: t
           | [] => [String a EmptyString]
           end
  end.

(** [s.partition(sep)] for a one-character separator: the text before the
    first separator and the text after it, [None] when there is none. *)
Fixpoint partition (sep : ascii) (s : string) : option (string * string) :=
  match s with
  | EmptyString => None
  | String a s' =>
      if Ascii.eqb a sep then Some (EmptyString, s')
      else match partition sep s' with
           | Some (h, t) => Some (String a h, t)
           | None => None
           end
  end.

(** [s.rpartition(sep)]: split at the last separator. *)
Fixpoint rpartition (sep : ascii) (s : string) : option (string * string) :=
  match s with
  | EmptyString => None
  | String a s' =>
      match rpartition sep s' with
      | Some (h, t) => Some (String a h, t)
      | None => if Ascii.eqb a sep then Some (EmptyString, s') else None
      end
  end.

Definition has_char (c : ascii) (s : string) : bool :=
  match partition c s with Some _ => true | None => false end.

Definition code (c : ascii) : N := N_of_ascii c.

(** Characters that [str.isspace] accepts, below code point 256. *)
Definition is_space (c : ascii) : bool :=
  let n := code c in
  ((9 <=? n) && (n <=? 13) || (28 <=? n) && (n <=? 32)
   || (n =? 133) || (n =? 160))%N.

Fixpoint lstrip_with (f : ascii -> bool) (s : string) : string :=
  match s with
  | EmptyString => EmptyString
  | String a s' => if f a then lstrip_with f s' else s
  end.

Fixpoint rstrip_with (f : ascii -> bool) (s : string) : string :=
  match s with
  | EmptyString => EmptyString
  | String a s' =>
      match rstrip_with f s' with
      | EmptyString => if f a then EmptyString else String a EmptyString
      | r => String a r
      end
  end.

(** [s.strip()] *)
Definition strip (s : string) : string :=
  rstrip_with is_space (lstrip_with is_space s).

(** [s.replace(c, "")] *)
Fixpoint remove_char (c : ascii) (s : string) : string :=
  match s with
  | EmptyString => EmptyString
  | String a s' =>
      if Ascii.eqb a c then remove_char c s' else String a (remove_char c s')
  end.

Definition is_upper (c : ascii) : bool := ((65 <=? code c) && (code c <=? 90))%N.
Definition is_lower (c : ascii) : bool := ((97 <=? code c) && (code c <=? 122))%N.
Definition is_digit (c : ascii) : bool := ((48 <=? code c) && (code c <=? 57))%N.

Definition lower_char (c : ascii) : ascii :=
  if is_upper c then ascii_of_N (code c + 32) else c.

(** [s.lower()] on ASCII letters *)
Fixpoint lower (s : string) : string :=
  match s with
  | EmptyString => EmptyString
  | String a s' => String (lower_char a) (lower s')
  end.

Fixpoint all_chars (f : ascii -> bool) (s : string) : bool :=
  match s with
  | EmptyString => true
  | String a s' => f a && all_chars f s'
  end.

(** Line boundaries of [str.splitlines], below code point 256. *)
Definition is_linebreak (c : ascii) : bool :=
  let n := code c in
  ((10 <=? n) && (n <=? 13) || (28 <=? n) && (n <=? 30) || (n =? 133))%N.

(** [s.splitlines()]: a carriage return followed by a line feed is one
    boundary, and a final boundary opens no empty last line. *)
Fixpoint splitlines (s : string) : list string :=
  match s with
  | EmptyString => []
  | String c s' =>
      if is_linebreak c then
        EmptyString ::
          (if (code c =? 13)%N then
             match s' with
             | String d s'' => if (code d =? 10)%N then splitlines s'' else splitlines s'
             | EmptyString => splitlines s'
             end
           else splitlines s')
      else match splitlines s' with
           | [] => [String c EmptyString]
           | l :: ls => String c l :: ls
           end
  end.

(** The digits of a decimal literal as [int] reads them: groups of digits
    separated by single underscores. *)
Fixpoint int_digits (acc : Z) (after_digit : bool) (s : string) : option Z :=
  match s with
  | EmptyString => if after_digit then Some acc else None
  | String c s' =>
      if is_digit c then
        int_digits (10 * acc + Z.of_N (code c - 48)) true s'
      else if Ascii.eqb c "_" && after_digit then
        match s' with
        | EmptyString => None
        | String d _ => if is_digit d then int_digits acc false s' else None
        end
      else None
  end.

(** The blanks [int] skips around a literal: unlike [str.strip] it keeps
    the separators 28 to 31. *)
Definition is_int_space (c : ascii) : bool :=
  let n := code c in
  ((9 <=? n) && (n <=? 13) || (n =? 32) || (n =? 133) || (n =? 160))%N.

(** The number of digit characters of a literal. *)
Fixpoint count_digits (acc : Z) (s : string) : Z :=
  match s with
  | EmptyString => acc
  | String c s' => count_digits (if is_digit c then acc + 1 else acc) s'
  end.

(** The default of [sys.get_int_max_str_digits()]. *)
Definition int_max_str_digits : Z := 4300.

(** A literal of more digits than the limit is refused. *)
Definition int_literal (d : string) : option Z :=
  if int_max_str_digits <? count_digits 0 d then None
  else int_digits 0 false d.

(** [int(s)] in base ten; [None] stands for the [ValueError]. *)
Definition int (s : string) : option Z :=
  match rstrip_with is_int_space (lstrip_with is_int_space s) with
  | String "-" d => Z.opp <$> int_literal d
  | String "+" d => int_literal d
  | d => int_literal d
  end.

End PyStr.

(** ** [urllib.parse.urlparse]

    The library functions the program calls, modelled after CPython 3.11
    with the bracket checks of its later patch releases: leading control
    characters and spaces are dropped, tabs and line ends removed, then
    scheme, network location, fragment, query and (for the schemes that
    take them) the parameters of the last path segment are split off in
    that order.  A network location with an unmatched square bracket raises
    [ValueError], and so does one whose brackets do not enclose, at the
    start of the host, an IPv6 or IPvFuture address. *)

(** The checks of [ipaddress] that [urlparse] relies on; each function
    answers whether the library accepts the text. *)
Module ipaddress.

Import PyStr.

Definition is_hex_digit (c : ascii) : bool :=
  is_digit c
  || ((97 <=? code c) && (code c <=? 102))%N
  || ((65 <=? code c) && (code c <=? 70))%N.

(** [_parse_octet]: one to three decimal digits, no leading zero, at most
    255. *)
Definition octet_ok (octet_str : string) : bool :=
  match octet_str with
  | EmptyString => false
  | String c0 _ =>
      all_chars is_digit octet_str
      && (String.length octet_str <=? 3)%nat
      && (String.eqb octet_str "0" || negb (Ascii.eqb c0 "0"))
      && match int_digits 0 false octet_str with
         | Some octet_int => octet_int <=? 255
         | None => false
         end
  end.

(** [IPv4Address(address)] *)
Definition IPv4Address_ok (address : string) : bool :=
  negb (has_char "/" address)
  && negb (String.eqb address EmptyString)
  && (length (split "." address) =? 4)%nat
  && forallb octet_ok (split "." address).

(** [_parse_hextet]: one to four hexadecimal digits. *)
Definition hextet_ok (hextet_str : string) : bool :=
  all_chars is_hex_digit hextet_str
  && (String.length hextet_str <=? 4)%nat
  && negb (String.eqb hextet_str EmptyString).

(** [_split_scope_id]: the address before a scope id, which must not be
    empty nor hold a second percent sign. *)
Definition split_scope_id (ip_str : string) : option string :=
  match partition "%" ip_str with
  | None => Some ip_str
  | Some (addr, scope_id) =>
      if String.eqb scope_id EmptyString || has_char "%" scope_id then None
      else Some addr
  end.

(** The indices, ends excluded, of the empty parts. *)
Definition empty_middle_parts (parts : list string) : list nat :=
  List.filter (fun i => String.eqb (nth i parts "x") EmptyString)
              (seq 1 (length parts - 2)).

(** The second half of [IPv6Address._ip_int_from_string], on the parts
    between colons: at most nine of them, at most one [::], which stands
    for at least one hextet, and hextets everywhere else. *)
Definition ip6_parts_ok (parts : list string) : bool :=
  let n := length parts in
  let first_empty := String.eqb (hd "x" parts) EmptyString in
  let last_empty := String.eqb (List.last parts "x") EmptyString in
  if (9 <? n)%nat then false
  else
    match empty_middle_parts parts with
    | _ :: _ :: _ => false
    | [skip_index] =>
        let parts_hi := if first_empty then (skip_index - 1)%nat else skip_index in
        let parts_lo :=
          if last_empty then (n - skip_index - 1 - 1)%nat
          else (n - skip_index - 1)%nat in
        if first_empty && negb (parts_hi =? 0)%nat then false
        else if last_empty && negb (parts_lo =? 0)%nat then false
        else if (8 <=? parts_hi + parts_lo)%nat then false
        else forallb hextet_ok (firstn parts_hi parts)
             && forallb hextet_ok (skipn (n - parts_lo) parts)
    | [] =>
        (n =? 8)%nat && negb first_empty && negb last_empty
        && forallb hextet_ok parts
    end.

(** [IPv6Address(address)]: a dotted last part must be an IPv4 address and
    then counts for two hextets. *)
Definition IPv6Address_ok (address : string) : bool :=
  if has_char "/" address then false
  else
    match split_scope_id address with
    | None => false
    | Some ip_str =>
        if String.eqb ip_str EmptyString then false
        else
          let parts := split ":" ip_str in
          if (length parts <? 3)%nat then false
          else if has_char "." (List.last parts EmptyString) then
            IPv4Address_ok (List.last parts EmptyString)
            && ip6_parts_ok (removelast parts ++ ["0"; "0"])
          else ip6_parts_ok parts
    end.

End ipaddress.

Inductive exn : Type :=
  | ValueError        (* raised by [urlparse] *)
  | BrowserError.     (* raised by [launch], [newPage] or [setUserAgent] *)

Module urllib_parse.

Import PyStr.

Record ParseResult : Type := mkParseResult {
  scheme : string;
  netloc : string;
  path : string;
  params : string;
  query : string;
  fragment : string
}.

Definition is_c0_or_space (c : ascii) : bool := (code c <=? 32)%N.

Definition is_scheme_char (c : ascii) : bool :=
  is_lower c || is_upper c || is_digit c
  || Ascii.eqb c "+" || Ascii.eqb c "-" || Ascii.eqb c ".".

Definition uses_params : list string :=
  [""; "ftp"; "hdl"; "prospero"; "http"; "imap"; "https"; "shttp"; "rtsp";
   "rtspu"; "sip"; "sips"; "mms"; "sftp"; "tel"].

(** The scheme and what follows its colon. *)
Definition split_scheme (url : string) : string * string :=
  match partition ":" url with
  | Some (String c0 rest as pre, post) =>
      if (is_lower c0 || is_upper c0) && all_chars is_scheme_char pre
      then (lower pre, post)
      else (EmptyString, url)
  | _ => (EmptyString, url)
  end.

(** [_splitnetloc(url, 2)] on the text after the two slashes: the network
    location runs up to the first of [/], [?] and [#]. *)
Fixpoint splitnetloc (s : string) : string * string :=
  match s with
  | EmptyString => (EmptyString, EmptyString)
  | String c s' =>
      if Ascii.eqb c "/" || Ascii.eqb c "?" || Ascii.eqb c "#"
      then (EmptyString, s)
      else let (n, r) := splitnetloc s' in (String c n, r)
  end.

(** [_splitparams]: the parameters start at the first semicolon of the
    last path segment. *)
Definition splitparams (url : string) : string * string :=
  match rpartition "/" url with
  | Some (dir, last) =>
      match partition ";" last with
      | Some (seg, ps) => ((dir ++ "/" ++ seg)%string, ps)
      | None => (url, EmptyString)
      end
  | None =>
      match partition ";" url with
      | Some (seg, ps) => (seg, ps)
      | None => (url, EmptyString)
      end
  end.

(** The regular expression of an IPvFuture host: [v], hexadecimal digits,
    a dot, then at least one character, none a line feed. *)
Definition ipvfuture_ok (hostname : string) : bool :=
  match hostname with
  | String "v" rest =>
      match partition "." rest with
      | Some (version, address) =>
          negb (String.eqb version EmptyString)
          && all_chars ipaddress.is_hex_digit version
          && negb (String.eqb address EmptyString)
          && negb (has_char "010" address)
      | None => false
      end
  | _ => false
  end.

(** [_check_bracketed_host] *)
Definition check_bracketed_host (hostname : string) : bool :=
  if startswith "v" hostname then ipvfuture_ok hostname
  else if ipaddress.IPv4Address_ok hostname then false
  else ipaddress.IPv6Address_ok hostname.

(** [_check_bracketed_netloc]: after the last [@], nothing may stand
    before the opening bracket and only a port after the closing one. *)
Definition check_bracketed_netloc (netloc : string) : bool :=
  let hostname_and_port :=
    match rpartition "@" netloc with
    | Some (_, after) => after
    | None => netloc
    end in
  match partition "[" hostname_and_port with
  | Some (before_bracket, bracketed) =>
      if negb (String.eqb before_bracket EmptyString) then false
      else
        let (hostname, port) :=
          match partition "]" bracketed with
          | Some p => p
          | None => (bracketed, EmptyString)
          end in
        if negb (String.eqb port EmptyString) && negb (startswith ":" port)
        then false
        else check_bracketed_host hostname
  | None =>
      check_bracketed_host
        match partition ":" hostname_and_port with
        | Some (hostname, _) => hostname
        | None => hostname_and_port
        end
  end.

Definition urlparse (url0 : string) : exn + ParseResult :=
  let url := lstrip_with is_c0_or_space url0 in
  let url := remove_char "010" (remove_char "013" (remove_char "009" url)) in
  let (sch, url) := split_scheme url in
  let after_netloc :=
    match url with
    | String "/" (String "/" rest) =>
        let (nl, r) := splitnetloc rest in
        if xorb (has_char "[" nl) (has_char "]" nl) then inl ValueError
        else if has_char "[" nl && has_char "]" nl
                && negb (check_bracketed_netloc nl)
        then inl ValueError
        else inr (nl, r)
    | _ => inr (EmptyString, url)
    end in
  match after_netloc with
  | inl e => inl e
  | inr (nl, url) =>
      let (url, frag) :=
        match partition "#" url with Some p => p | None => (url, EmptyString) end in
      let (url, qry) :=
        match partition "?" url with Some p => p | None => (url, EmptyString) end in
      let (url, prm) :=
        if bool_decide (sch ∈ uses_params) && has_char ";" url
        then splitparams url else (url, EmptyString) in
      inr (mkParseResult sch nl url prm qry frag)
  end.

End urllib_parse.

(** ** The URL normalizer *)

Import PyStr.

(** [is_login_redirect]: substring tests on the parsed path and query. *)
Definition is_login_redirect (url : string) : exn + bool :=
  match urllib_parse.urlparse url with
  | inl e => inl e
  | inr parsed =>
      if contains "sign_in" (urllib_parse.path parsed)
         && contains "destination" (urllib_parse.query parsed)
      then inr true
      else inr false
  end.

(** [strip_url_fragment]: [url.split('#')[0]] *)
Definition strip_url_fragment (url : string) : string :=
  match split "#" url with
  | h :: _ => h
  | [] => EmptyString
  end.


(** ** The outside world and the trace of what the program does to it *)

(** Answer of [requests.get]: an exception, or a response. *)
Inductive http_result : Type :=
  | RequestFails
  | HttpResponse (status_code : Z) (text : string).

(** The three DOM queries made on a rendered page; [None] is a query that
    raises.  [q_links] is the [a[href]] query of [get_all_links], [q_images]
    and [q_files] are the [img[src]] and [a[href]] queries of
    [count_files_and_images]. *)
Record Dom : Type := mkDom {
  q_links : option (list string);
  q_images : option (list string);
  q_files : option (list string)
}.

(** Outcome of [page.goto]: it raises, answers [None], or answers a
    response with a status and leaves the page rendered. *)
Inductive goto_result : Type :=
  | GotoRaises
  | GotoNone
  | GotoResponse (status : Z) (dom : Dom).

Record World : Type := mkWorld {
  launch_ok : bool;
  requests_get : string -> http_result;
  page_goto : string -> goto_result
}.

Inductive event : Type :=
  | Launch
  | Get (url : string)
  | Goto (url : string)
  | Sleep (seconds : Z)
  | Close.

(** ** The politeness policy *)

(** The [for line in lines] loop of [get_crawl_delay_from_robots_txt]: the
    first line holding the token decides; a missing colon ([IndexError]) or
    a field that [int] refuses ([ValueError]) ends in the [except] branch,
    which falls through to [return None]. *)
Fixpoint scan_crawl_delay (lines : list string) : option Z :=
  match lines with
  | [] => None
  | line :: rest =>
      if contains "Crawl-delay" line then
        match nth_error (split ":" line) 1 with
        | Some field => int (strip field)
        | None => None
        end
      else scan_crawl_delay rest
  end.

Definition robots_url (base_url : string) : string :=
  (base_url ++ "/robots.txt")%string.

Definition get_crawl_delay_from_robots_txt (W : World) (base_url : string)
  : option Z * list event :=
  (match requests_get W (robots_url base_url) with
   | RequestFails => None
   | HttpResponse status_code text =>
       if status_code =? 200 then scan_crawl_delay (splitlines text) else None
   end,
   [Get (robots_url base_url)]).

(** ** The page renderer *)

Definition get_all_links (dom : Dom) : gset string :=
  match q_links dom with
  | Some links => list_to_set links
  | None => ∅
  end.

(** The extension list local to [count_files_and_images]. *)
Definition page_file_extensions : list string :=
  [".pdf"; ".doc"; ".docx"; ".zip"; ".rar"; ".ppt"; ".pptx"; ".xls";
   ".xlsx"; ".csv"].

(** The extension list local to [crawl_website]. *)
Definition crawl_file_extensions : list string :=
  [".pdf"; ".doc"; ".docx"; ".zip"; ".rar"; ".ppt"; ".pptx";
   ".xls"; ".xlsx"; ".csv"; ".jpg"; ".jpeg"; ".png"; ".gif";
   ".mp3"; ".wav"; ".ogg"; ".m4a"; ".mp4"; ".avi"; ".mov"; ".mkv"].

(** [any(ext in link for ext in exts)] *)
Definition any_ext_in (exts : list string) (link : string) : bool :=
  existsb (fun ext => contains ext link) exts.

(** [count_files_and_images]: the image query comes first, and either query
    raising gives two empty lists. *)
Definition count_files_and_images (dom : Dom) : list string * list string :=
  match q_images dom with
  | None => ([], [])
  | Some images =>
      match q_files dom with
      | None => ([], [])
      | Some files =>
          (List.filter (any_ext_in page_file_extensions) files, images)
      end
  end.

(** ** The sleep between navigations *)

(** The least integer that no float holds: adding it to a float raises
    [OverflowError]. *)
Definition float_overflow : Z := 2 ^ 1024 - 2 ^ 970.

(** [asyncio.sleep(delay)] returns at once for a delay that is not
    positive; any other delay is added to the clock of the event loop, a
    float, and that addition raises for an integer beyond the floats. *)
Definition sleep_raises (delay : Z) : bool :=
  (0 <? delay) && (float_overflow <=? delay).

(** ** The crawl engine *)

Record crawl_state : Type := mkState {
  pages_set : gset string;
  files_set : gset string;
  urls_to_crawl : gset string;
  visited_urls : gset string;
  trace : list event
}.

Definition count (st : crawl_state) : nat :=
  (size (pages_set st) + size (files_set st))%nat.

Definition log (e : event) (st : crawl_state) : crawl_state :=
  mkState (pages_set st) (files_set st) (urls_to_crawl st) (visited_urls st)
          (trace st ++ [e]).

(** ** Trace observations *)

(** The URLs navigated to, in order. *)
Fixpoint gotos (tr : list event) : list string :=
  match tr with
  | [] => []
  | Goto u :: tr' => u :: gotos tr'
  | _ :: tr' => gotos tr'
  end.

(** The robots.txt requests made. *)
Fixpoint requests (tr : list event) : list string :=
  match tr with
  | [] => []
  | Get u :: tr' => u :: requests tr'
  | _ :: tr' => requests tr'
  end.

(** A trace is polite when a [Sleep] separates any two navigations:
    [pending] says that a navigation has happened with no sleep since. *)
Fixpoint polite_from (pending : bool) (tr : list event) : bool :=
  match tr with
  | [] => true
  | Goto _ :: tr' => negb pending && polite_from true tr'
  | Sleep _ :: tr' => polite_from false tr'
  | _ :: tr' => polite_from pending tr'
  end.

Definition polite (tr : list event) : bool := polite_from false tr.

(** A fetch that yields no page to extract from. *)
Definition fetch_fails (r : goto_result) : bool :=
  match r with
  | GotoResponse status _ => negb (status =? 200)
  | GotoRaises | GotoNone => true
  end.

(** The number of file and image links one iteration on [popped] can add
    to the file set. *)
Definition page_items (W : World) (popped : string) : nat :=
  match page_goto W (strip_url_fragment popped) with
  | GotoResponse _ dom =>
      let (files_on_page, images_on_page) := count_files_and_images dom in
      length (files_on_page ++ images_on_page)
  | _ => O
  end.

Section Engine.

Variable W : World.
Variable url : string.          (* the seed, argument of [crawl_website] *)
Variable crawl_delay : Z.

(** [internal_links] of one rendered page. *)
Definition internal_links (dom : Dom) : list string :=
  map strip_url_fragment
      (List.filter (contains url) (elements (get_all_links dom))).

(** One pass through the body of the [while], after the budget check, for
    the element [popped] that [urls_to_crawl.pop()] removed.  [inl] is an
    exception leaving the loop.  What is raised inside the [try], by
    [page.goto] or by [asyncio.sleep], ends the iteration with the URL
    marked and nothing extracted. *)
Definition loop_body (popped : string) (st : crawl_state) : exn + crawl_state :=
  let frontier := urls_to_crawl st ∖ {[popped]} in
  let current_url := strip_url_fragment popped in
  match is_login_redirect current_url with
  | inl e => inl e
  | inr true =>
      inr (mkState (pages_set st) (files_set st) frontier (visited_urls st) (trace st))
  | inr false =>
      if decide (current_url ∈ visited_urls st) then
        inr (mkState (pages_set st) (files_set st) frontier (visited_urls st) (trace st))
      else if any_ext_in crawl_file_extensions current_url then
        inr (mkState (pages_set st) ({[current_url]} ∪ files_set st) frontier
                     (visited_urls st) (trace st))
      else
        let marked :=
          mkState ({[current_url]} ∪ pages_set st) (files_set st) frontier
                  ({[current_url]} ∪ visited_urls st)
                  (trace st ++ [Goto current_url]) in
        match page_goto W current_url with
        | GotoRaises => inr marked
        | GotoNone =>
            if sleep_raises crawl_delay then inr marked
            else inr (log (Sleep crawl_delay) marked)
        | GotoResponse status dom =>
            if sleep_raises crawl_delay then inr marked
            else
              let slept := log (Sleep crawl_delay) marked in
              if negb (status =? 200) then inr slept
              else
                let (files_on_page, images_on_page) := count_files_and_images dom in
                inr (mkState (pages_set slept)
                             (files_set slept
                              ∪ list_to_set (files_on_page ++ images_on_page))
                             (urls_to_crawl slept ∪ list_to_set (internal_links dom))
                             (visited_urls slept) (trace slept))
        end
  end.

(** Every run of the [while] loop, whatever [pop] picks: the state at the
    exit and the exception that left the loop, if one did. *)
Inductive loop_run : crawl_state -> crawl_state * option exn -> Prop :=
  | run_exhausted st :
      urls_to_crawl st = ∅ -> loop_run st (st, None)
  | run_break st :
      urls_to_crawl st ≠ ∅ -> (200 < count st)%nat -> loop_run st (st, None)
  | run_raise st popped e :
      popped ∈ urls_to_crawl st -> (count st <= 200)%nat ->
      loop_body popped st = inl e -> loop_run st (st, Some e)
  | run_iter st popped st' r :
      popped ∈ urls_to_crawl st -> (count st <= 200)%nat ->
      loop_body popped st = inr st' -> loop_run st' r -> loop_run st r.

(** The states the loop passes through at the top of the [while]. *)
Inductive loop_reaches : crawl_state -> crawl_state -> Prop :=
  | reaches_here st : loop_reaches st st
  | reaches_iter st popped st' st'' :
      loop_reaches st st' ->
      popped ∈ urls_to_crawl st' -> (count st' <= 200)%nat ->
      loop_body popped st' = inr st'' -> loop_reaches st st''.

(** The three ways an iteration can end without raising: the popped URL
    is skipped, filed, or marked as a page and navigated to. *)
Inductive iteration (popped : string) (st st' : crawl_state) : Prop :=
  | it_skip :
      (is_login_redirect (strip_url_fragment popped) = inr true
       \/ strip_url_fragment popped ∈ visited_urls st) ->
      st' = mkState (pages_set st) (files_set st)
                    (urls_to_crawl st ∖ {[popped]}) (visited_urls st) (trace st) ->
      iteration popped st st'
  | it_file :
      is_login_redirect (strip_url_fragment popped) = inr false ->
      strip_url_fragment popped ∉ visited_urls st ->
      any_ext_in crawl_file_extensions (strip_url_fragment popped) = true ->
      st' = mkState (pages_set st) ({[strip_url_fragment popped]} ∪ files_set st)
                    (urls_to_crawl st ∖ {[popped]}) (visited_urls st) (trace st) ->
      iteration popped st st'
  | it_page (extracted : list string) (links : list string) (sleeps : list event) :
      is_login_redirect (strip_url_fragment popped) = inr false ->
      strip_url_fragment popped ∉ visited_urls st ->
      any_ext_in crawl_file_extensions (strip_url_fragment popped) = false ->
      (length extracted <= page_items W popped)%nat ->
      gotos sleeps = [] ->
      st' = mkState ({[strip_url_fragment popped]} ∪ pages_set st)
                    (files_set st ∪ list_to_set extracted)
                    ((urls_to_crawl st ∖ {[popped]}) ∪ list_to_set links)
                    ({[strip_url_fragment popped]} ∪ visited_urls st)
                    ((trace st ++ [Goto (strip_url_fragment popped)]) ++ sleeps) ->
      iteration popped st st'.

(** What the loop maintains. *)
Record engine_inv (st : crawl_state) : Prop := mkInv {
  inv_pages_visited : pages_set st ⊆ visited_urls st;
  inv_gotos_visited : forall u, u ∈ gotos (trace st) -> u ∈ visited_urls st;
  inv_gotos_nodup : NoDup (gotos (trace st));
  inv_pages_stripped : forall p, p ∈ pages_set st -> has_char "#" p = false
}.

(** The loop run with a given [pop]: [pop i s] is the element removed from
    the frontier [s] in iteration [i]. *)
Variable pop : nat -> gset string -> string.

Fixpoint crawl_loop (fuel : nat) (i : nat) (st : crawl_state)
  : option (crawl_state * option exn) :=
  match fuel with
  | O => None
  | S fuel' =>
      if decide (urls_to_crawl st = ∅) then Some (st, None)
      else if (200 <? count st)%nat then Some (st, None)
      else match loop_body (pop i (urls_to_crawl st)) st with
           | inl e => Some (st, Some e)
           | inr st' => crawl_loop fuel' (S i) st'
           end
  end.

End Engine.

(** ** [crawl_website] and the process it runs in *)

(** The default value of [visited_urls] is one set object, created when the
    function is defined and owned by the process. *)
Record process : Type := mkProcess {
  default_visited_urls : gset string
}.

Definition fresh_process : process := mkProcess ∅.

Inductive outcome : Type :=
  | Returned (pages files : gset string)
  | Raised (e : exn).

(** What a call leaves behind: its outcome, the content of the set object
    it used as [visited_urls], and its trace. *)
Record call_result : Type := mkCall {
  call_outcome : outcome;
  call_visited : gset string;
  call_trace : list event
}.

Definition resolve_crawl_delay (W : World) (url : string) : Z :=
  match fst (get_crawl_delay_from_robots_txt W url) with
  | Some d => d
  | None => 1
  end.

(** The state on entry to the [while]. *)
Definition init_state (W : World) (url : string) (visited : gset string)
  : crawl_state :=
  mkState ∅ ∅ {[url]} visited
          (Launch :: snd (get_crawl_delay_from_robots_txt W url)).

Definition crawl_website (W : World) (pop : nat -> gset string -> string)
    (fuel : nat) (url : string) (visited_arg : option (gset string))
    (proc : process) : option (call_result * process) :=
  let visited :=
    match visited_arg with
    | Some v => v
    | None => default_visited_urls proc
    end in
  let store (v : gset string) : process :=
    match visited_arg with
    | Some _ => proc
    | None => mkProcess v
    end in
  if negb (launch_ok W) then
    Some (mkCall (Raised BrowserError) visited [Launch], proc)
  else
    let crawl_delay := resolve_crawl_delay W url in
    match crawl_loop W url crawl_delay pop fuel 0 (init_state W url visited) with
    | None => None
    | Some (st, Some e) =>
        Some (mkCall (Raised e) (visited_urls st) (trace st), store (visited_urls st))
    | Some (st, None) =>
        Some (mkCall (Returned (pages_set st) (files_set st)) (visited_urls st)
                     (trace st ++ [Close]),
              store (visited_urls st))
    end.

(** A [pop] for running examples: the least element in the order of
    [elements]. *)
Definition pop_first (i : nat) (s : gset string) : string :=
  match elements s with
  | x :: _ => x
  | [] => EmptyString
  end.

Definition valid_pop (pop : nat -> gset string -> string) : Prop :=
  forall i s, s ≠ ∅ -> pop i s ∈ s.

(** ** The specification's wording, for comparison *)

(** The extension list of the specification's URL classifier: the
    document, archive, spreadsheet and presentation extensions, then the
    media extensions. *)
Definition spec_document_extensions : list string :=
  [".pdf"; ".doc"; ".docx"; ".zip"; ".rar"; ".ppt"; ".pptx"; ".xls";
   ".xlsx"; ".csv"].

Definition spec_media_extensions : list string :=
  [".jpg"; ".jpeg"; ".png"; ".gif"; ".mp3"; ".wav"; ".ogg"; ".m4a";
   ".mp4"; ".avi"; ".mov"; ".mkv"].

Definition spec_file_extensions : list string :=
  spec_document_extensions ++ spec_media_extensions.

(** [ExtractFileLinks] as the specification words it: the anchors that
    match the classifier's list. *)
Definition spec_ExtractFileLinks (anchors : list string) : list string :=
  List.filter (any_ext_in spec_file_extensions) anchors.

(** "The path contains the literal segment": one of the pieces between
    slashes is the segment. *)
Definition spec_path_has_segment (segment path : string) : bool :=
  bool_decide (segment ∈ split "/" path).

(** "The query string contains a parameter named": one of the fields
    between ampersands has that name before its equals sign. *)
Definition spec_query_has_parameter (name query : string) : bool :=
  existsb (fun field =>
             match split "=" field with
             | n :: _ => String.eqb n name
             | [] => false
             end)
          (split "&" query).

Definition spec_IsLoginRedirect (url : string) : bool :=
  match urllib_parse.urlparse url with
  | inl _ => false
  | inr parsed =>
      spec_path_has_segment "sign_in" (urllib_parse.path parsed)
      && spec_query_has_parameter "destination" (urllib_parse.query parsed)
  end.

(** ** Sites used in the examples *)

Module Sites.

Definition home : string := "http://h/".

Definition no_dom : Dom := mkDom None None None.

(** A home page whose only link is to itself. *)
Definition self_link : World :=
  mkWorld true (fun _ => RequestFails)
    (fun u => if String.eqb u home
              then GotoResponse 200 (mkDom (Some [home]) (Some []) (Some [home]))
              else GotoRaises).

(** The state of the crawl of [self_link] after its first iteration. *)
Definition self_link_visited : crawl_state :=
  mkState {[home]} ∅ {[home]} {[home]}
          [Launch; Get "http://h//robots.txt"; Goto home; Sleep 1].

(** A site whose every page answers with status 500 and whose robots.txt
    is missing. *)
Definition down : World :=
  mkWorld true (fun _ => HttpResponse 404 "") (fun _ => GotoResponse 500 no_dom).

(** A home page with two internal links, both of which fail to load. *)
Definition dead_links : World :=
  let anchors := ["http://h/a"; "http://h/b"] in
  mkWorld true (fun _ => RequestFails)
    (fun u => if String.eqb u home
              then GotoResponse 200 (mkDom (Some anchors) (Some []) (Some anchors))
              else GotoRaises).

(** A home page linking the same document under two fragments. *)
Definition fragment_files : World :=
  let anchors := ["http://o/d.pdf#p1"; "http://o/d.pdf#p2"] in
  mkWorld true (fun _ => RequestFails)
    (fun u => if String.eqb u home
              then GotoResponse 200 (mkDom (Some anchors) (Some []) (Some anchors))
              else GotoRaises).

(** A home page showing [n] distinct images (for [n] up to 256) and
    linking one further page. *)
Definition image (n : nat) : string :=
  ("http://o/" ++
   String (ascii_of_nat (97 + n / 16)) (String (ascii_of_nat (97 + n mod 16)) ".png"))%string.

Definition gallery (n : nat) : World :=
  mkWorld true (fun _ => RequestFails)
    (fun u => if String.eqb u home
              then GotoResponse 200
                     (mkDom (Some ["http://h/a"]) (Some (map image (seq 0 n)))
                            (Some ["http://h/a"]))
              else GotoResponse 200 (mkDom (Some []) (Some []) (Some []))).

(** The state of the crawl of [gallery n] after its first iteration. *)
Definition gallery_visited (n : nat) : crawl_state :=
  mkState {[home]} (list_to_set (map image (seq 0 n))) {["http://h/a"]} {[home]}
          [Launch; Get "http://h//robots.txt"; Goto home; Sleep 1].

(** A home page with a link that [urlparse] refuses: the bracket of its
    network location is never closed. *)
Definition bad_link : World :=
  let anchors := ["http://[v6/?next=http://h/"] in
  mkWorld true (fun _ => RequestFails)
    (fun u => if String.eqb u home
              then GotoResponse 200 (mkDom (Some anchors) (Some []) (Some anchors))
              else GotoRaises).

(** An anchor list with a media link among document links. *)
Definition media_anchors : Dom :=
  mkDom (Some []) (Some ["http://h/logo.png"])
        (Some ["http://h/a.pdf"; "http://h/clip.mp4"; "http://h/about"]).

End Sites.

(** ** What a page contributes, and more trace observations *)

(** The anchors that [get_all_links] collects on the page a navigation to
    [u] renders; none unless the answer has status 200. *)
Definition page_links (W : World) (u : string) : list string :=
  match page_goto W u with
  | GotoResponse status dom =>
      if status =? 200 then elements (get_all_links dom) else []
  | _ => []
  end.

(** The file and image links of that page, as [count_files_and_images]
    hands them to [files_set.update]. *)
Definition page_files (W : World) (u : string) : list string :=
  match page_goto W u with
  | GotoResponse status dom =>
      if status =? 200
      then fst (count_files_and_images dom) ++ snd (count_files_and_images dom)
      else []
  | _ => []
  end.

(** What follows [page.goto] in the trace: the sleep, unless one of the
    two raised. *)
Definition nav_sleep (W : World) (crawl_delay : Z) (u : string) : list event :=
  match page_goto W u with
  | GotoRaises => []
  | _ => if sleep_raises crawl_delay then [] else [Sleep crawl_delay]
  end.

(** The URLs that can enter the frontier of a crawl of [url]: the seed as
    given, and the stripped form of any anchor holding the seed that a page
    shows. *)
Definition in_scope (W : World) (url u : string) : Prop :=
  u = url \/
  exists page link,
    In link (page_links W page) /\ contains url link = true /\
    u = strip_url_fragment link.

(** Whether a navigation is still waiting for its sleep at the end of a
    trace. *)
Fixpoint pending_after (pending : bool) (tr : list event) : bool :=
  match tr with
  | [] => pending
  | Goto _ :: tr' => pending_after true tr'
  | Sleep _ :: tr' => pending_after false tr'
  | _ :: tr' => pending_after pending tr'
  end.

Definition is_navigation (e : event) : bool :=
  match e with
  | Goto _ | Sleep _ => true
  | _ => false
  end.

Definition is_sleep_of (seconds : Z) (e : event) : bool :=
  match e with
  | Sleep d => d =? seconds
  | _ => true
  end.



(** ** The functions around the crawl *)

(** [count_internal_pages] *)
Definition count_internal_pages (links : list string) (base_url : string) : nat :=
  length (List.filter (contains base_url) links).

(** [recommended_pricing_package] *)
Definition recommended_pricing_package (total_count : Z) : string :=
  if total_count <? 50 then "Core Setup"
  else if total_count <? 200 then "Classic Setup"
  else "Complete+ Setup".

(** The order of the three packages, smallest first; anything else has no
    rank. *)
Definition package_rank (package : string) : option nat :=
  if String.eqb package "Core Setup" then Some 0%nat
  else if String.eqb package "Classic Setup" then Some 1%nat
  else if String.eqb package "Complete+ Setup" then Some 2%nat
  else None.

(** The values [json] decoding yields.  An object is given by the items of
    its [dict], keys distinct; a float is kept only as whether it differs
    from zero, which is all the program can see of it. *)
Inductive json : Type :=
  | JNull
  | JBool (b : bool)
  | JInt (n : Z)
  | JFloat (nonzero : bool)
  | JStr (s : string)
  | JArr (items : list json)
  | JObj (fields : list (string * json)).

(** [bool(v)], as [if not v] tests it. *)
Definition truthy (v : json) : bool :=
  match v with
  | JNull => false
  | JBool b => b
  | JInt n => negb (n =? 0)
  | JFloat nonzero => nonzero
  | JStr s => negb (String.eqb s EmptyString)
  | JArr items => match items with [] => false | _ :: _ => true end
  | JObj fields => match fields with [] => false | _ :: _ => true end
  end.

Fixpoint dict_get (fields : list (string * json)) (key : string) : option json :=
  match fields with
  | [] => None
  | (k, v) :: rest => if String.eqb k key then Some v else dict_get rest key
  end.

(** [v[key]] for a string key: [None] stands for the [KeyError] of a
    missing key and for the [TypeError] of a value that is no [dict]. *)
Definition subscript (v : json) (key : string) : option json :=
  match v with
  | JObj fields => dict_get fields key
  | _ => None
  end.

(** Answer of the CRM to the [GET] of a deal: the request raises, or a
    response comes with its status and, unless [response.json()] raises,
    its decoded body. *)
Inductive crm_result : Type :=
  | CrmRequestFails
  | CrmResponse (status_code : Z) (decoded : option json).

Inductive crm_event : Type :=
  | CrmGet (deal_id : json)
  | CrmPatch (deal_id : json) (package : string).

(** [fetch_current_site_url_from_hubspot]: [JNull] is Python's [None]. *)
Definition fetch_current_site_url_from_hubspot
    (crm : json -> crm_result) (deal_id : json) : json :=
  match crm deal_id with
  | CrmRequestFails => JNull
  | CrmResponse status_code decoded =>
      if status_code =? 200 then
        match decoded with
        | None => JNull
        | Some deal_data =>
            match subscript deal_data "properties" with
            | None => JNull
            | Some properties =>
                match subscript properties "Current site" with
                | None => JNull
                | Some current_site_url => current_site_url
                end
            end
        end
      else JNull
  end.

(** [update_hubspot_with_recommended_package]: one [PATCH]; whatever its
    fate, nothing comes back to the caller. *)
Definition update_hubspot_with_recommended_package
    (deal_id : json) (package : string) : list crm_event :=
  [CrmPatch deal_id package].

Inductive response_body : Type :=
  | Text (s : string)
  | Message (s : string)
  | RecommendedPackage (package : string).

Record response : Type := mkResponse {
  statusCode : Z;
  body : response_body
}.

(** What an invocation leaves behind: its response, its calls to the CRM,
    and the process. *)
Record invocation : Type := mkInvocation {
  inv_response : response;
  inv_crm : list crm_event;
  inv_process : process
}.

(** [lambda_handler] on an event that is a [dict], given by its items.  A
    site URL that is no [str] makes [crawl_website] raise before it touches
    the visited set, a [TypeError] at [{url}] or an [AttributeError] at
    [url.split]. *)
Definition lambda_handler (W : World) (crm : json -> crm_result)
    (pop : nat -> gset string -> string) (fuel : nat)
    (event : list (string * json)) (proc : process) : option invocation :=
  let deal_id :=
    match dict_get event "deal_id" with
    | Some v => v
    | None => JNull
    end in
  if negb (truthy deal_id) then
    Some (mkInvocation (mkResponse 400 (Text "deal_id not provided")) [] proc)
  else
    let url := fetch_current_site_url_from_hubspot crm deal_id in
    if negb (truthy url) then
      Some (mkInvocation
              (mkResponse 400 (Text "Could not fetch Current site URL from HubSpot"))
              [CrmGet deal_id] proc)
    else
      let failed (proc' : process) :=
        mkInvocation
          (mkResponse 500 (Text "Error during website crawling or accessing the URL."))
          [CrmGet deal_id] proc' in
      match url with
      | JStr site =>
          match crawl_website W pop fuel site None proc with
          | None => None
          | Some (call, proc') =>
              match call_outcome call with
              | Raised _ => Some (failed proc')
              | Returned pages files =>
                  let total_count := Z.of_nat (size pages + size files) in
                  if total_count <? 5 then
                    Some (mkInvocation
                            (mkResponse 200
                               (Message "Total count is below threshold or website inaccessible. Manual verification required."))
                            [CrmGet deal_id] proc')
                  else
                    let package := recommended_pricing_package total_count in
                    Some (mkInvocation
                            (mkResponse 200 (RecommendedPackage package))
                            (CrmGet deal_id
                               :: update_hubspot_with_recommended_package deal_id package)
                            proc')
              end
          end
      | _ => Some (failed proc)
      end.

(** ** More sites for the examples *)

Module MoreSites.

(** A site that asks for ten seconds between requests and has one page. *)
Definition slow : World :=
  mkWorld true
    (fun _ => HttpResponse 200
                ("User-agent: *" ++ String "010" "Crawl-delay: 10" ++ String "010" ""))
    (fun _ => GotoResponse 200 (mkDom (Some []) (Some []) (Some []))).

(** A home page with a document link and a link to a page that shows
    seven images. *)
Definition small : World :=
  mkWorld true (fun _ => RequestFails)
    (fun u => if String.eqb u Sites.home
              then GotoResponse 200
                     (mkDom (Some ["http://h/a"; "http://h/d.pdf"; "http://o/"])
                            (Some ["http://h/logo.png"])
                            (Some ["http://h/a"; "http://h/d.pdf"; "http://o/"]))
              else GotoResponse 200
                     (mkDom (Some [Sites.home])
                            (Some (map Sites.image (seq 0 7)))
                            (Some [Sites.home]))).

(** The same site behind a browser that cannot be launched. *)
Definition no_browser : World :=
  mkWorld false (requests_get small) (page_goto small).

(** A CRM that knows deal 7, whose current site is the home page. *)
Definition crm (deal_id : json) : crm_result :=
  match deal_id with
  | JInt 7 =>
      CrmResponse 200
        (Some (JObj [("id", JStr "7");
                     ("properties", JObj [("Current site", JStr Sites.home)])]))
  | _ => CrmResponse 404 None
  end.

Definition deal_event : list (string * json) := [("deal_id", JInt 7)].

(** What the crawl of [small] from its home page returns. *)
Definition small_pages : gset string := {[Sites.home; "http://h/a"]}.

Definition small_files : gset string :=
  list_to_set ("http://h/d.pdf" :: "http://h/logo.png" :: map Sites.image (seq 0 7)).

Definition small_call : call_result :=
  mkCall (Returned small_pages small_files) small_pages
         [Launch; Get "http://h//robots.txt"; Goto Sites.home; Sleep 1;
          Goto "http://h/a"; Sleep 1; Close].

(** The site [small] with a robots.txt that asks for a delay of one
    followed by four hundred zeros, in seconds. *)
Fixpoint zeros (n : nat) : string :=
  match n with
  | O => EmptyString
  | S n' => String "0" (zeros n')
  end.

Definition impatient : World :=
  mkWorld true
    (fun _ => HttpResponse 200 ("Crawl-delay: 1" ++ zeros 400))
    (page_goto small).

Definition impatient_call : call_result :=
  mkCall (Returned {[Sites.home]} ∅) {[Sites.home]}
         [Launch; Get "http://h//robots.txt"; Goto Sites.home; Close].

End MoreSites.

(** ** Facts about the string primitives *)

Module PyStrFacts.

Lemma startswith_spec (p s : string) :
  startswith p s = true <-> exists post, s = (p ++ post)%string.
Proof.
  revert s. induction p as [|a p IH]; intros s; simpl.
  - split; [intros _; exists s; reflexivity | reflexivity].
  - destruct s as [|b s]; simpl.
    + split; [discriminate | intros [post H]; discriminate].
    + rewrite andb_true_iff, Ascii.eqb_eq, IH. split.
      * intros [-> [post ->]]. exists post. reflexivity.
      * intros [post H]. injection H as -> ->. split; [reflexivity | eauto].
Qed.

Lemma contains_spec (needle hay : string) :
  contains needle hay = true <-> substring_of needle hay.
Proof.
  unfold substring_of. induction hay as [|a hay IH].
  - simpl. rewrite orb_false_r, startswith_spec. split.
    + intros [post H]. exists EmptyString, post. exact H.
    + intros [[|c pre] [post H]]; [exists post; exact H | discriminate].
  - cbn [contains]. rewrite orb_true_iff, startswith_spec, IH. split.
    + intros [[post H] | [pre [post H]]].
      * exists EmptyString, post. exact H.
      * exists (String a pre), post. simpl. rewrite H. reflexivity.
    + intros [[|c pre] [post H]].
      * left. exists post. exact H.
      * right. simpl in H. injection H as -> ->. eauto.
Qed.

Lemma contains_false (needle hay : string) :
  contains needle hay = false <-> ~ substring_of needle hay.
Proof.
  rewrite <- contains_spec. destruct (contains needle hay); split;
    intros H; (congruence || (exfalso; apply H; reflexivity) || reflexivity).
Qed.

Lemma append_cons (x : ascii) (a b : string) :
  (String x a ++ b = String x (a ++ b))%string.
Proof. reflexivity. Qed.

Lemma append_nil (b : string) : (EmptyString ++ b = b)%string.
Proof. reflexivity. Qed.

Lemma app_assoc_s (a b c : string) :
  ((a ++ b) ++ c = a ++ (b ++ c))%string.
Proof.
  induction a as [|x a IH]; [reflexivity|].
  rewrite !append_cons, IH. reflexivity.
Qed.

Lemma substring_of_trans (a b c : string) :
  substring_of a b -> substring_of b c -> substring_of a c.
Proof.
  intros (p1 & q1 & ->) (p2 & q2 & ->).
  exists (p2 ++ p1)%string, (q1 ++ q2)%string.
  rewrite !app_assoc_s. reflexivity.
Qed.

(** [split] never gives the empty list, and its first piece has no
    separator in it. *)
Lemma split_nonempty (sep : ascii) (s : string) : split sep s <> [].
Proof.
  induction s as [|a s IH]; simpl; [discriminate|].
  destruct (Ascii.eqb a sep); [discriminate|].
  destruct (split sep s); [congruence | discriminate].
Qed.

Lemma split_head_no_sep (sep : ascii) (s h : string) (t : list string) :
  split sep s = h :: t -> has_char sep h = false.
Proof.
  unfold has_char. revert h t. induction s as [|a s IH]; simpl; intros h t H.
  - injection H as <- <-. reflexivity.
  - destruct (Ascii.eqb a sep) eqn:E.
    + injection H as <- <-. reflexivity.
    + destruct (split sep s) as [|h' t'] eqn:Es.
      * injection H as <- <-. simpl. rewrite E. reflexivity.
      * injection H as <- <-. simpl. rewrite E.
        specialize (IH h' t' eq_refl). destruct (partition sep h') as [[? ?]|];
          [discriminate | reflexivity].
Qed.

(** A string without the separator is the only piece of its [split]. *)
Lemma split_no_sep (sep : ascii) (s : string) :
  has_char sep s = false -> split sep s = [s].
Proof.
  unfold has_char. induction s as [|a s IH]; simpl; [reflexivity|].
  destruct (Ascii.eqb a sep); [discriminate|].
  destruct (partition sep s) as [[? ?]|]; [discriminate|].
  intros _. rewrite IH; reflexivity.
Qed.

End PyStrFacts.

Import PyStrFacts.

(** ** Facts about the URL normalizer *)

Lemma strip_url_fragment_no_hash (u : string) :
  has_char "#" (strip_url_fragment u) = false.
Proof.
  unfold strip_url_fragment. destruct (split "#" u) as [|h t] eqn:E.
  - reflexivity.
  - eapply split_head_no_sep; eassumption.
Qed.

Lemma strip_url_fragment_fixed (u : string) :
  has_char "#" u = false -> strip_url_fragment u = u.
Proof. intros H. unfold strip_url_fragment. rewrite split_no_sep; auto. Qed.

Lemma strip_url_fragment_idempotent (u : string) :
  strip_url_fragment (strip_url_fragment u) = strip_url_fragment u.
Proof. apply strip_url_fragment_fixed, strip_url_fragment_no_hash. Qed.

(** ** Facts about one iteration *)

Lemma gotos_app (tr1 tr2 : list event) :
  gotos (tr1 ++ tr2) = (gotos tr1 ++ gotos tr2)%list.
Proof.
  induction tr1 as [|e tr1 IH]; [reflexivity|].
  destruct e; simpl; rewrite IH; reflexivity.
Qed.

Lemma difference_subseteq (X Y : gset string) : X ∖ Y ⊆ X.
Proof. intros x Hx. apply elem_of_difference in Hx. tauto. Qed.

Lemma size_union_le (X Y : gset string) :
  (size (X ∪ Y) <= size X + size Y)%nat.
Proof.
  rewrite size_union_alt.
  pose proof (subseteq_size _ _ (difference_subseteq Y X)). lia.
Qed.

Lemma size_insert_le (x : string) (X : gset string) :
  (size ({[x]} ∪ X) <= 1 + size X)%nat.
Proof. pose proof (size_union_le {[x]} X) as H. rewrite size_singleton in H. exact H. Qed.

Lemma size_list_to_set_le (l : list string) :
  (size (list_to_set (C := gset string) l) <= length l)%nat.
Proof.
  induction l as [|x l IH].
  - rewrite list_to_set_nil, size_empty. simpl. lia.
  - rewrite list_to_set_cons. pose proof (size_insert_le x (list_to_set l)).
    simpl. lia.
Qed.

Lemma size_insert_fresh (x : string) (X : gset string) :
  x ∉ X -> size ({[x]} ∪ X) = S (size X).
Proof.
  intros Hx. rewrite size_union by set_solver. rewrite size_singleton. reflexivity.
Qed.

Section EngineFacts.

Variable W : World.
Variable url : string.
Variable crawl_delay : Z.

Local Abbreviation body := (loop_body W url crawl_delay).
Local Abbreviation iteration := (iteration W).
Local Abbreviation run := (loop_run W url crawl_delay).
Local Abbreviation reaches := (loop_reaches W url crawl_delay).

Lemma union_empty_r_gset (X : gset string) : X ∪ list_to_set [] = X.
Proof. rewrite list_to_set_nil. apply (right_id_L ∅ (∪)). Qed.

Lemma loop_body_iteration (popped : string) (st st' : crawl_state) :
  body popped st = inr st' -> iteration popped st st'.
Proof.
  unfold loop_body, log. intros H.
  destruct (is_login_redirect (strip_url_fragment popped)) as [e|[|]] eqn:Hl;
    [discriminate | injection H as <-; apply it_skip; auto |].
  destruct (decide (strip_url_fragment popped ∈ visited_urls st)) as [Hv|Hv];
    [injection H as <-; apply it_skip; auto |].
  destruct (any_ext_in crawl_file_extensions (strip_url_fragment popped)) eqn:Hx;
    [injection H as <-; apply it_file; auto |].
  cbn [pages_set files_set urls_to_crawl visited_urls trace] in H.
  assert (Hmarked :
    iteration popped st
      (mkState ({[strip_url_fragment popped]} ∪ pages_set st) (files_set st)
               (urls_to_crawl st ∖ {[popped]})
               ({[strip_url_fragment popped]} ∪ visited_urls st)
               (trace st ++ [Goto (strip_url_fragment popped)]))).
  { apply it_page with (extracted := []) (links := []) (sleeps := []); auto;
      [simpl; lia|].
    rewrite !union_empty_r_gset, app_nil_r. reflexivity. }
  assert (Hslept :
    iteration popped st
      (mkState ({[strip_url_fragment popped]} ∪ pages_set st) (files_set st)
               (urls_to_crawl st ∖ {[popped]})
               ({[strip_url_fragment popped]} ∪ visited_urls st)
               ((trace st ++ [Goto (strip_url_fragment popped)])
                  ++ [Sleep crawl_delay]))).
  { apply it_page with (extracted := []) (links := [])
                       (sleeps := [Sleep crawl_delay]); auto; [simpl; lia|].
    rewrite !union_empty_r_gset. reflexivity. }
  destruct (page_goto W (strip_url_fragment popped)) as [| |status dom] eqn:Hg.
  - injection H as <-. exact Hmarked.
  - destruct (sleep_raises crawl_delay); injection H as <-; assumption.
  - destruct (sleep_raises crawl_delay); [injection H as <-; assumption|].
    destruct (negb (status =? 200)); [injection H as <-; assumption|].
    destruct (count_files_and_images dom) as [fs imgs] eqn:Hc.
    injection H as <-.
    apply it_page with (extracted := (fs ++ imgs)%list)
                       (links := (internal_links url dom))
                       (sleeps := [Sleep crawl_delay]);
      auto.
    unfold page_items. rewrite Hg, Hc. lia.
Qed.

(** Apart from a URL that [urlparse] refuses, nothing raises out of an
    iteration: navigation and DOM failures are absorbed. *)
Lemma loop_body_no_raise (popped : string) (st : crawl_state) (b : bool) :
  is_login_redirect (strip_url_fragment popped) = inr b ->
  exists st', body popped st = inr st'.
Proof.
  intros Hb. unfold loop_body. rewrite Hb.
  destruct b; [eauto|].
  destruct (decide _); [eauto|].
  destruct (any_ext_in _ _); [eauto|].
  destruct (page_goto W _) as [| |status dom];
    [eauto | destruct (sleep_raises crawl_delay); eauto |].
  destruct (sleep_raises crawl_delay); [eauto|].
  destruct (negb _); [eauto|].
  destruct (count_files_and_images dom). eauto.
Qed.

Lemma loop_body_raises (popped : string) (st : crawl_state) (e : exn) :
  body popped st = inl e <->
  is_login_redirect (strip_url_fragment popped) = inl e.
Proof.
  split.
  - intros H. destruct (is_login_redirect (strip_url_fragment popped)) as [e'|b] eqn:Hb.
    + unfold loop_body in H. rewrite Hb in H. congruence.
    + destruct (loop_body_no_raise popped st b Hb) as [st' Hst']. congruence.
  - intros H. unfold loop_body. rewrite H. reflexivity.
Qed.

(** The sets only grow, except the frontier, which loses what was popped. *)
Lemma loop_body_mono (popped : string) (st st' : crawl_state) :
  body popped st = inr st' ->
  pages_set st ⊆ pages_set st' /\ files_set st ⊆ files_set st' /\
  visited_urls st ⊆ visited_urls st' /\
  urls_to_crawl st ∖ {[popped]} ⊆ urls_to_crawl st'.
Proof.
  intros H. apply loop_body_iteration in H.
  destruct H as [_ ->|_ _ _ ->|ex ls sl _ _ _ _ _ ->];
    cbn [pages_set files_set urls_to_crawl visited_urls];
    repeat split; try reflexivity;
    first [apply union_subseteq_r | apply union_subseteq_l].
Qed.

Lemma loop_body_count_mono (popped : string) (st st' : crawl_state) :
  body popped st = inr st' -> (count st <= count st')%nat.
Proof.
  intros H. destruct (loop_body_mono _ _ _ H) as (Hp & Hf & _).
  unfold count. apply subseteq_size in Hp, Hf. lia.
Qed.

(** An iteration adds at most the popped URL and the file and image links
    of its page. *)
Lemma loop_body_count_bound (popped : string) (st st' : crawl_state) :
  body popped st = inr st' ->
  (count st' <= count st + 1 + page_items W popped)%nat.
Proof.
  intros H. apply loop_body_iteration in H. unfold count.
  destruct H as [_ ->|_ _ _ ->|ex ls sl _ _ _ Hlen _ ->];
    cbn [pages_set files_set].
  - lia.
  - pose proof (size_insert_le (strip_url_fragment popped) (files_set st)). lia.
  - pose proof (size_insert_le (strip_url_fragment popped) (pages_set st)).
    pose proof (size_union_le (files_set st) (list_to_set ex)).
    pose proof (size_list_to_set_le ex). lia.
Qed.

(** The dequeue-time check: a popped URL already visited only leaves the
    frontier. *)
Lemma loop_body_visited (popped : string) (st st' : crawl_state) :
  strip_url_fragment popped ∈ visited_urls st ->
  body popped st = inr st' ->
  st' = mkState (pages_set st) (files_set st) (urls_to_crawl st ∖ {[popped]})
                (visited_urls st) (trace st).
Proof.
  intros Hv H. apply loop_body_iteration in H.
  destruct H as [_ ->|_ Hn _ _|ex ls sl _ Hn _ _ _ _]; [reflexivity | done | done].
Qed.

Lemma loop_body_inv (popped : string) (st st' : crawl_state) :
  engine_inv st -> body popped st = inr st' -> engine_inv st'.
Proof.
  intros [Hpv Hgv Hnd Hps] H. apply loop_body_iteration in H.
  destruct H as [_ ->|_ _ _ ->|ex ls sl _ Hn _ _ Hsl ->];
    [split; assumption | split; assumption |].
  split; cbn [pages_set visited_urls trace].
  - apply union_mono_l, Hpv.
  - intros u. rewrite !gotos_app, Hsl, app_nil_r. simpl.
    rewrite elem_of_app, list_elem_of_singleton, elem_of_union, elem_of_singleton.
    intros [Hu| ->]; auto.
  - rewrite !gotos_app, Hsl, app_nil_r. simpl.
    apply NoDup_app. split_and!; [assumption | | apply NoDup_singleton].
    intros u Hu Hin. apply list_elem_of_singleton in Hin as ->. auto.
  - intros p. rewrite elem_of_union, elem_of_singleton.
    intros [-> | Hp]; [apply strip_url_fragment_no_hash | auto].
Qed.

Lemma init_state_inv (visited : gset string) :
  engine_inv (init_state W url visited).
Proof.
  split; simpl.
  - apply empty_subseteq.
  - intros u Hu. inversion Hu.
  - constructor.
  - intros p Hp. apply not_elem_of_empty in Hp. destruct Hp.
Qed.

Lemma reaches_inv (st st' : crawl_state) :
  engine_inv st -> reaches st st' -> engine_inv st'.
Proof.
  intros Hinv H. induction H as [|st popped st' st'' _ IH]; [assumption|].
  eapply (loop_body_inv popped st'); [auto | eassumption].
Qed.

Lemma reaches_trans_body (st st' st'' : crawl_state) (popped : string) :
  popped ∈ urls_to_crawl st -> (count st <= 200)%nat ->
  body popped st = inr st' -> reaches st' st'' -> reaches st st''.
Proof.
  intros Hin Hc Hb H. induction H.
  - eapply reaches_iter; eauto using reaches_here.
  - eapply reaches_iter; eauto.
Qed.

(** The state a run ends in is one the loop reaches. *)
Lemma run_reaches (st : crawl_state) (r : crawl_state * option exn) :
  run st r -> reaches st (fst r).
Proof.
  intros H. induction H; simpl; try apply reaches_here.
  eapply reaches_trans_body; eauto.
Qed.

End EngineFacts.

(** ** The URL normalizer and the file-link extraction *)

(** C6 (as amended): [is_login_redirect] answers true exactly when the URL
    parses, [sign_in] occurs somewhere in its path and [destination] occurs
    somewhere in its query string, both as plain substrings. *)
Theorem is_login_redirect_substrings (u : string) :
  is_login_redirect u = inr true <->
  exists parsed,
    urllib_parse.urlparse u = inr parsed /\
    substring_of "sign_in" (urllib_parse.path parsed) /\
    substring_of "destination" (urllib_parse.query parsed).
Proof.
  unfold is_login_redirect. split.
  - destruct (urllib_parse.urlparse u) as [e|parsed]; [discriminate|].
    destruct (contains "sign_in" _ && contains "destination" _) eqn:E;
      [|discriminate].
    intros _. apply andb_true_iff in E as [E1 E2].
    exists parsed. rewrite <- !contains_spec. auto.
  - intros (parsed & -> & H1 & H2).
    apply contains_spec in H1, H2. rewrite H1, H2. reflexivity.
Qed.

(** C6, the claim as worded fails: the query [next=destination] has no
    parameter named [destination], yet the URL is taken for a login
    redirect. *)
Lemma is_login_redirect_not_by_parameter_name :
  is_login_redirect "http://h/sign_in?next=destination" = inr true /\
  spec_IsLoginRedirect "http://h/sign_in?next=destination" = false.
Proof. split; vm_compute; reflexivity. Qed.

Lemma any_ext_in_spec (exts : list string) (link : string) :
  any_ext_in exts link = true <->
  exists ext, In ext exts /\ substring_of ext link.
Proof.
  unfold any_ext_in. rewrite existsb_exists.
  split; intros (ext & Hin & H); exists ext; split; auto;
    apply contains_spec; exact H.
Qed.

Lemma crawl_file_extensions_spec : crawl_file_extensions = spec_file_extensions.
Proof. reflexivity. Qed.

Lemma page_file_extensions_spec : page_file_extensions = spec_document_extensions.
Proof. reflexivity. Qed.

(** C5 (as amended): when both DOM queries succeed, the file links that
    [count_files_and_images] returns are exactly the anchors holding one of
    the ten document, archive, spreadsheet and presentation extensions as a
    substring; the media extensions play no part in it. *)
Theorem count_files_and_images_document_links
    (dom : Dom) (images anchors : list string) (href : string) :
  q_images dom = Some images ->
  q_files dom = Some anchors ->
  In href (fst (count_files_and_images dom)) <->
  In href anchors /\
  exists ext, In ext spec_document_extensions /\ substring_of ext href.
Proof.
  intros Hi Hf. unfold count_files_and_images. rewrite Hi, Hf.
  cbn [fst]. rewrite filter_In, any_ext_in_spec, page_file_extensions_spec.
  reflexivity.
Qed.

Lemma count_files_and_images_document_links_witness :
  In "http://h/a.pdf" (fst (count_files_and_images Sites.media_anchors)) <->
  In "http://h/a.pdf" ["http://h/a.pdf"; "http://h/clip.mp4"; "http://h/about"] /\
  exists ext, In ext spec_document_extensions /\ substring_of ext "http://h/a.pdf".
Proof.
  apply (count_files_and_images_document_links
           Sites.media_anchors ["http://h/logo.png"]); reflexivity.
Defined.

(** C5, the claim as worded fails: an anchor to a [.mp4] matches the
    classifier's list but is not among the returned file links. *)
Lemma count_files_and_images_misses_media :
  In "http://h/clip.mp4"
     (spec_ExtractFileLinks ["http://h/a.pdf"; "http://h/clip.mp4"; "http://h/about"]) /\
  q_files Sites.media_anchors
    = Some ["http://h/a.pdf"; "http://h/clip.mp4"; "http://h/about"] /\
  ~ In "http://h/clip.mp4" (fst (count_files_and_images Sites.media_anchors)).
Proof.
  split; [vm_compute; auto|]. split; [reflexivity|].
  vm_compute. intros [H|[]]. discriminate.
Qed.

(** Either DOM query raising leaves nothing. *)
Lemma count_files_and_images_on_error (dom : Dom) :
  q_images dom = None \/ q_files dom = None ->
  count_files_and_images dom = ([], []).
Proof.
  unfold count_files_and_images. intros [H|H]; rewrite H; [reflexivity|].
  destruct (q_images dom); reflexivity.
Qed.

(** ** The politeness policy *)

Lemma substring_of_refl (s : string) : substring_of s s.
Proof.
  exists EmptyString, EmptyString. rewrite append_nil.
  induction s as [|a s IH]; [reflexivity|].
  rewrite append_cons, <- IH. reflexivity.
Qed.

Lemma substring_of_tail (a : ascii) (line s : string) :
  substring_of line s -> substring_of line (String a s).
Proof. intros (pre & post & ->). exists (String a pre), post. reflexivity. Qed.

Lemma substring_of_empty (s : string) : substring_of EmptyString s.
Proof. exists EmptyString, s. reflexivity. Qed.

(** The first line of [splitlines] starts the text, and every line is a
    piece of it. *)
Lemma splitlines_pieces (n : nat) (s : string) :
  (String.length s <= n)%nat ->
  (forall l ls, splitlines s = l :: ls -> exists post, s = (l ++ post)%string) /\
  (forall line, In line (splitlines s) -> substring_of line s) /\
  (splitlines s = [] -> s = EmptyString).
Proof.
  revert s. induction n as [|n IH]; intros s Hlen.
  - destruct s; [|simpl in Hlen; lia]. simpl.
    split_and!; [discriminate | intros line [] | reflexivity].
  - destruct s as [|c s]; [simpl; split_and!; [discriminate | intros line [] | reflexivity]|].
    simpl in Hlen. assert (Hs : (String.length s <= n)%nat) by lia.
    destruct (IH s Hs) as (Hhead & Hin & Hnil).
    cbn [splitlines]. destruct (is_linebreak c).
    + split_and!; [| |discriminate].
      * intros l ls H. injection H as <- _. exists (String c s). reflexivity.
      * intros line [<-|H]; [apply substring_of_empty|].
        apply substring_of_tail.
        destruct (code c =? 13)%N; [|auto].
        destruct s as [|d s']; [auto|].
        destruct (code d =? 10)%N; [|auto].
        apply substring_of_tail.
        simpl in Hs. apply (IH s' ltac:(lia)). exact H.
    + destruct (splitlines s) as [|l ls] eqn:E.
      * rewrite (Hnil eq_refl).
        split_and!; [| |discriminate].
        -- intros l ls H. injection H as <- _. exists EmptyString.
           reflexivity.
        -- intros line [<-|[]]. apply substring_of_refl.
      * destruct (Hhead l ls eq_refl) as [post Hpost].
        split_and!; [| |discriminate].
        -- intros l' ls' H. injection H as <- _. exists post.
           rewrite append_cons, <- Hpost. reflexivity.
        -- intros line [<-|H].
           ++ exists EmptyString, post. rewrite append_nil, append_cons, <- Hpost.
              reflexivity.
           ++ apply substring_of_tail, Hin. right. exact H.
Qed.

Lemma splitlines_substring (s line : string) :
  In line (splitlines s) -> substring_of line s.
Proof. apply (splitlines_pieces (String.length s) s); lia. Qed.

Lemma scan_crawl_delay_no_token (lines : list string) :
  (forall line, In line lines -> contains "Crawl-delay" line = false) ->
  scan_crawl_delay lines = None.
Proof.
  induction lines as [|line rest IH]; intros H; [reflexivity|].
  cbn [scan_crawl_delay]. rewrite (H line) by (left; reflexivity).
  apply IH. intros l Hl. apply H. right. exact Hl.
Qed.

(** The first line holding the token decides. *)
Lemma scan_crawl_delay_first (lines : list string) (line : string) :
  List.find (contains "Crawl-delay") lines = Some line ->
  scan_crawl_delay lines =
    match nth_error (split ":" line) 1 with
    | Some field => int (strip field)
    | None => None
    end.
Proof.
  induction lines as [|l rest IH]; [discriminate|].
  cbn [List.find scan_crawl_delay].
  destruct (contains "Crawl-delay" l); [|exact IH].
  intros H. injection H as ->. reflexivity.
Qed.

(** X13: when robots.txt answers 200, the first line holding the
    [Crawl-delay] token decides: if the text between its first and second
    colon is an integer once stripped of blanks, that integer is the crawl
    delay, whatever later lines say. *)
Lemma resolve_crawl_delay_directive
    (W : World) (url text line field : string) (d : Z) :
  requests_get W (robots_url url) = HttpResponse 200 text ->
  List.find (contains "Crawl-delay") (splitlines text) = Some line ->
  nth_error (split ":" line) 1 = Some field ->
  int (strip field) = Some d ->
  resolve_crawl_delay W url = d.
Proof.
  intros Hr Hf Hn Hi. unfold resolve_crawl_delay, get_crawl_delay_from_robots_txt.
  rewrite Hr. cbn [fst]. rewrite Z.eqb_refl.
  rewrite (scan_crawl_delay_first _ _ Hf), Hn, Hi. reflexivity.
Qed.

(** C9: the delay is exactly one second when the robots.txt request
    fails, answers with a status other than 200, holds no [Crawl-delay]
    token, or the first line holding it has no integer after its first
    colon; in every case exactly one request was made. *)
Theorem resolve_crawl_delay_default (W : World) (url : string) :
  (requests_get W (robots_url url) = RequestFails
   \/ (exists status text,
         requests_get W (robots_url url) = HttpResponse status text /\
         status <> 200)
   \/ (exists text,
         requests_get W (robots_url url) = HttpResponse 200 text /\
         contains "Crawl-delay" text = false)
   \/ (exists text line,
         requests_get W (robots_url url) = HttpResponse 200 text /\
         List.find (contains "Crawl-delay") (splitlines text) = Some line /\
         forall field, nth_error (split ":" line) 1 = Some field ->
                       int (strip field) = None)) ->
  resolve_crawl_delay W url = 1 /\
  snd (get_crawl_delay_from_robots_txt W url) = [Get (robots_url url)].
Proof.
  intros H. split; [|reflexivity].
  unfold resolve_crawl_delay, get_crawl_delay_from_robots_txt. cbn [fst].
  destruct H as [-> | [(status & text & -> & Hs) | [(text & -> & Hc) | (text & line & -> & Hf & Hp)]]].
  - reflexivity.
  - apply Z.eqb_neq in Hs. rewrite Hs. reflexivity.
  - rewrite Z.eqb_refl, scan_crawl_delay_no_token; [reflexivity|].
    intros line Hin. apply contains_false. intros Hsub.
    apply contains_false in Hc. apply Hc.
    eapply substring_of_trans; [exact Hsub | apply splitlines_substring, Hin].
  - rewrite Z.eqb_refl, (scan_crawl_delay_first _ _ Hf).
    destruct (nth_error (split ":" line) 1) as [field|] eqn:E; [|reflexivity].
    rewrite (Hp field eq_refl). reflexivity.
Qed.

Lemma resolve_crawl_delay_default_witness :
  resolve_crawl_delay Sites.down Sites.home = 1 /\
  snd (get_crawl_delay_from_robots_txt Sites.down Sites.home)
    = [Get "http://h//robots.txt"].
Proof.
  apply (resolve_crawl_delay_default Sites.down Sites.home).
  right. left. exists 404, EmptyString. split; [reflexivity | lia].
Defined.

(** ** Runs of the crawl loop *)

Section LoopFacts.

Variable W : World.
Variable url : string.
Variable crawl_delay : Z.

Local Abbreviation body := (loop_body W url crawl_delay).
Local Abbreviation run := (loop_run W url crawl_delay).
Local Abbreviation reaches := (loop_reaches W url crawl_delay).

(** The loop with a given [pop] is one of the runs. *)
Lemma crawl_loop_run (pop : nat -> gset string -> string) :
  valid_pop pop ->
  forall fuel i st r,
    crawl_loop W url crawl_delay pop fuel i st = Some r -> run st r.
Proof.
  intros Hpop. induction fuel as [|fuel IH]; intros i st r H; [discriminate|].
  cbn [crawl_loop] in H.
  destruct (decide (urls_to_crawl st = ∅)) as [He|He].
  { injection H as <-. apply run_exhausted, He. }
  destruct (200 <? count st)%nat eqn:Hb.
  { injection H as <-. apply Nat.ltb_lt in Hb. apply run_break; assumption. }
  apply Nat.ltb_ge in Hb.
  destruct (body (pop i (urls_to_crawl st)) st) as [e|st'] eqn:Hbody.
  - injection H as <-. eapply run_raise; eauto.
  - eapply run_iter; eauto.
Qed.

(** Once the budget is exceeded the loop leaves at once. *)
Lemma run_over_budget (st : crawl_state) (r : crawl_state * option exn) :
  (200 < count st)%nat -> run st r -> r = (st, None).
Proof. intros Hc H. destruct H; try reflexivity; lia. Qed.

(** The loop always ends: a page iteration uses up budget, any other
    iteration shortens the frontier. *)
Lemma run_total_aux (budget : nat) :
  forall (frontier : nat) (st : crawl_state),
    pages_set st ⊆ visited_urls st ->
    (201 - count st <= budget)%nat ->
    (size (urls_to_crawl st) <= frontier)%nat ->
    exists r, run st r.
Proof.
  induction budget as [|budget IHb]; intros frontier st Hinv Hb Hf.
  { destruct (decide (urls_to_crawl st = ∅)) as [He|He];
      [exists (st, None); apply run_exhausted, He|].
    exists (st, None). apply run_break; [exact He | lia]. }
  revert st Hinv Hb Hf. induction frontier as [|frontier IHf]; intros st Hinv Hb Hf.
  { exists (st, None). apply run_exhausted.
    apply leibniz_equiv, size_empty_inv. lia. }
  destruct (decide (urls_to_crawl st = ∅)) as [He|He];
    [exists (st, None); apply run_exhausted, He|].
  destruct (le_lt_dec (count st) 200) as [Hc|Hc];
    [|exists (st, None); apply run_break; [exact He | lia]].
  destruct (set_choose_L _ He) as [popped Hin].
  destruct (body popped st) as [e|st'] eqn:Hbody;
    [exists (st, Some e); eapply run_raise; eauto|].
  assert (Hnext : exists r, run st' r).
  { pose proof (loop_body_iteration _ _ _ _ _ _ Hbody) as Hit.
    assert (Hpop : (size (urls_to_crawl st ∖ {[popped]}) <= frontier)%nat).
    { rewrite size_difference by (apply singleton_subseteq_l, Hin).
      rewrite size_singleton. lia. }
    destruct Hit as [_ ->|_ _ _ ->|ex ls sl _ Hn _ _ _ ->].
    - apply IHf; cbn [pages_set files_set urls_to_crawl visited_urls];
        [exact Hinv | exact Hb | exact Hpop].
    - apply IHf; cbn [pages_set files_set urls_to_crawl visited_urls];
        [exact Hinv | | exact Hpop].
      unfold count in *. cbn [pages_set files_set].
      pose proof (subseteq_size (files_set st)
                    ({[strip_url_fragment popped]} ∪ files_set st)
                    (union_subseteq_r _ _)). lia.
    - eapply (IHb _ _); cbn [pages_set files_set urls_to_crawl visited_urls];
        [apply union_mono_l, Hinv | | reflexivity].
      unfold count in *. cbn [pages_set files_set].
      rewrite size_insert_fresh by (intros Hp; apply Hn, Hinv, Hp).
      pose proof (subseteq_size (files_set st) (files_set st ∪ list_to_set ex)
                    (union_subseteq_l _ _)). lia. }
  destruct Hnext as [r Hr]. exists r. eapply run_iter; eauto.
Qed.

Lemma run_total (st : crawl_state) :
  pages_set st ⊆ visited_urls st -> exists r, run st r.
Proof.
  intros Hinv.
  apply (run_total_aux (201 - count st) (size (urls_to_crawl st)) st); auto.
Qed.

End LoopFacts.

(** Every crawl comes out of its loop. *)
Lemma crawl_loop_ends (W : World) (url : string) (crawl_delay : Z)
    (visited : gset string) :
  exists r, loop_run W url crawl_delay (init_state W url visited) r.
Proof. apply run_total, init_state_inv. Qed.

(** C2: with more than 200 pages and files at the top of the loop no
    iteration is started, the run ends in that very state; and a run that
    starts within the budget ends either within it or in the state that one
    iteration made of a state within it, so that it is over by no more than
    what this iteration added: the popped URL and the file and image links
    of its page. *)
Theorem budget_ceiling (W : World) (url : string) (crawl_delay : Z)
    (st final : crawl_state) (e : option exn) :
  loop_run W url crawl_delay st (final, e) ->
  ((200 < count st)%nat -> final = st /\ e = None) /\
  ((count st <= 200)%nat ->
   (count final <= 200)%nat \/
   exists st' popped,
     loop_reaches W url crawl_delay st st' /\
     (count st' <= 200)%nat /\
     popped ∈ urls_to_crawl st' /\
     loop_body W url crawl_delay popped st' = inr final /\
     (count final <= count st' + 1 + page_items W popped)%nat).
Proof.
  intros H. remember (final, e) as r eqn:Er. revert final e Er.
  induction H as [st He|st He Hc|st popped e' Hin Hc Hb|st popped st1 r Hin Hc Hb Hrun IH];
    intros final e Er.
  - injection Er as <- <-. split; [auto | intros Hc; left; exact Hc].
  - injection Er as <- <-. split; [auto | lia].
  - injection Er as <- <-. split; [lia | intros _; left; exact Hc].
  - subst r. split; [lia|]. intros _.
    destruct (IH final e eq_refl) as [Hover Hwithin].
    destruct (le_lt_dec (count st1) 200) as [Hc1|Hc1].
    + destruct (Hwithin Hc1) as [Hle|(st' & popped' & Hr & Hc' & Hin' & Hb' & Hbound)];
        [left; exact Hle|].
      right. exists st', popped'. split_and!; auto.
      eapply reaches_trans_body; eauto.
    + destruct (Hover Hc1) as [-> _].
      right. exists st, popped. split_and!; auto using reaches_here.
      eapply loop_body_count_bound; eauto.
Qed.

(** ** The crawl engine on concrete sites *)

Lemma pop_first_valid : valid_pop pop_first.
Proof.
  intros i s Hs. unfold pop_first.
  destruct (elements s) as [|x l] eqn:E.
  - apply elements_empty_inv in E. apply leibniz_equiv in E. contradiction.
  - apply elem_of_elements. rewrite E. left.
Qed.

Lemma count_init_state (W : World) (url : string) (visited : gset string) :
  count (init_state W url visited) = 0%nat.
Proof.
  unfold count, init_state. cbn [pages_set files_set].
  rewrite size_empty. reflexivity.
Qed.

Lemma gallery_first_iteration :
  loop_body (Sites.gallery 201) Sites.home 1 Sites.home
            (init_state (Sites.gallery 201) Sites.home ∅)
  = inr (Sites.gallery_visited 201).
Proof. vm_cast_no_check (eq_refl (A := exn + crawl_state) (inr (Sites.gallery_visited 201))). Qed.

Lemma gallery_run :
  loop_run (Sites.gallery 201) Sites.home 1
           (init_state (Sites.gallery 201) Sites.home ∅)
           (Sites.gallery_visited 201, None).
Proof.
  eapply run_iter with (popped := Sites.home).
  - unfold init_state. cbn [urls_to_crawl]. apply elem_of_singleton_2. reflexivity.
  - rewrite count_init_state. lia.
  - exact gallery_first_iteration.
  - apply run_break.
    + unfold Sites.gallery_visited. cbn [urls_to_crawl].
      apply (non_empty_singleton_L (C := gset string)).
    + vm_compute. lia.
Qed.

(** C2 at work: a home page with 201 images puts the crawl at 202 items
    after one iteration, and the page it links is never visited. *)
Lemma budget_ceiling_witness :
  loop_run (Sites.gallery 201) Sites.home 1
           (init_state (Sites.gallery 201) Sites.home ∅)
           (Sites.gallery_visited 201, None) /\
  (count (init_state (Sites.gallery 201) Sites.home ∅) <= 200)%nat /\
  ((count (Sites.gallery_visited 201) <= 200)%nat \/
   exists st' popped,
     loop_reaches (Sites.gallery 201) Sites.home 1
                  (init_state (Sites.gallery 201) Sites.home ∅) st' /\
     (count st' <= 200)%nat /\
     popped ∈ urls_to_crawl st' /\
     loop_body (Sites.gallery 201) Sites.home 1 popped st'
       = inr (Sites.gallery_visited 201) /\
     (count (Sites.gallery_visited 201)
      <= count st' + 1 + page_items (Sites.gallery 201) popped)%nat).
Proof.
  split; [exact gallery_run|].
  split; [rewrite count_init_state; lia|].
  apply (budget_ceiling (Sites.gallery 201) Sites.home 1
           (init_state (Sites.gallery 201) Sites.home ∅)
           (Sites.gallery_visited 201) None gallery_run).
  rewrite count_init_state. lia.
Defined.

Lemma gallery_over_budget :
  count (Sites.gallery_visited 201) = 202%nat /\
  urls_to_crawl (Sites.gallery_visited 201) = {["http://h/a"]}.
Proof. split; [vm_compute|]; reflexivity. Qed.

(** ** Deduplication *)

Lemma self_link_reaches :
  loop_reaches Sites.self_link Sites.home 1
               (init_state Sites.self_link Sites.home ∅) Sites.self_link_visited.
Proof.
  eapply reaches_iter with (popped := Sites.home).
  - apply reaches_here.
  - unfold init_state. cbn [urls_to_crawl]. apply elem_of_singleton_2. reflexivity.
  - rewrite count_init_state. lia.
  - vm_compute. reflexivity.
Qed.

(** C1 (as amended): the frontier may hold URLs that are already visited;
    the check is made when a URL is dequeued.  In every state the loop
    reaches, every page is a visited URL, no URL has been navigated to
    twice, and an iteration that pops a URL whose stripped form is visited
    only removes it from the frontier. *)
Theorem visited_checked_at_dequeue
    (W : World) (url : string) (crawl_delay : Z) (visited : gset string)
    (st : crawl_state) :
  loop_reaches W url crawl_delay (init_state W url visited) st ->
  pages_set st ⊆ visited_urls st /\
  NoDup (gotos (trace st)) /\
  forall popped st',
    popped ∈ urls_to_crawl st ->
    strip_url_fragment popped ∈ visited_urls st ->
    loop_body W url crawl_delay popped st = inr st' ->
    st' = mkState (pages_set st) (files_set st) (urls_to_crawl st ∖ {[popped]})
                  (visited_urls st) (trace st).
Proof.
  intros H.
  destruct (reaches_inv W url crawl_delay _ _ (init_state_inv W url visited) H)
    as [Hpv _ Hnd _].
  split_and!; [exact Hpv | exact Hnd |].
  intros popped st' _ Hv Hb. eapply loop_body_visited; eauto.
Qed.

Lemma visited_checked_at_dequeue_witness :
  loop_reaches Sites.self_link Sites.home 1
               (init_state Sites.self_link Sites.home ∅) Sites.self_link_visited /\
  pages_set Sites.self_link_visited ⊆ visited_urls Sites.self_link_visited /\
  NoDup (gotos (trace Sites.self_link_visited)) /\
  forall popped st',
    popped ∈ urls_to_crawl Sites.self_link_visited ->
    strip_url_fragment popped ∈ visited_urls Sites.self_link_visited ->
    loop_body Sites.self_link Sites.home 1 popped Sites.self_link_visited = inr st' ->
    st' = mkState (pages_set Sites.self_link_visited) (files_set Sites.self_link_visited)
                  (urls_to_crawl Sites.self_link_visited ∖ {[popped]})
                  (visited_urls Sites.self_link_visited)
                  (trace Sites.self_link_visited).
Proof.
  split; [exact self_link_reaches|].
  apply (visited_checked_at_dequeue Sites.self_link Sites.home 1 ∅
           Sites.self_link_visited self_link_reaches).
Defined.

(** C1, the claim as worded fails: a home page that links to itself is
    both visited and back in the frontier after the first iteration. *)
Lemma frontier_meets_visited :
  loop_reaches Sites.self_link Sites.home 1
               (init_state Sites.self_link Sites.home ∅) Sites.self_link_visited /\
  Sites.home ∈ visited_urls Sites.self_link_visited ∩ urls_to_crawl Sites.self_link_visited.
Proof.
  split; [exact self_link_reaches|].
  unfold Sites.self_link_visited. cbn [visited_urls urls_to_crawl].
  apply elem_of_intersection. split; apply elem_of_singleton_2; reflexivity.
Qed.

(** ** Marking before the fetch *)

Lemma loop_body_failed_fetch
    (W : World) (url : string) (crawl_delay : Z) (popped : string)
    (st : crawl_state) :
  is_login_redirect (strip_url_fragment popped) = inr false ->
  strip_url_fragment popped ∉ visited_urls st ->
  any_ext_in crawl_file_extensions (strip_url_fragment popped) = false ->
  fetch_fails (page_goto W (strip_url_fragment popped)) = true ->
  exists sleeps,
    gotos sleeps = [] /\
    loop_body W url crawl_delay popped st
    = inr (mkState ({[strip_url_fragment popped]} ∪ pages_set st) (files_set st)
                   (urls_to_crawl st ∖ {[popped]})
                   ({[strip_url_fragment popped]} ∪ visited_urls st)
                   ((trace st ++ [Goto (strip_url_fragment popped)]) ++ sleeps)).
Proof.
  intros Hl Hv Hx Hf. unfold loop_body, log. rewrite Hl, Hx.
  destruct (decide (strip_url_fragment popped ∈ visited_urls st)); [contradiction|].
  cbn [pages_set files_set urls_to_crawl visited_urls trace].
  destruct (page_goto W (strip_url_fragment popped)) as [| |status dom].
  - exists []. rewrite app_nil_r. auto.
  - destruct (sleep_raises crawl_delay);
      [exists []; rewrite app_nil_r | exists [Sleep crawl_delay]]; auto.
  - cbn [fetch_fails] in Hf. rewrite Hf.
    destruct (sleep_raises crawl_delay);
      [exists []; rewrite app_nil_r | exists [Sleep crawl_delay]]; auto.
Qed.

(** C7: a seed that is a page URL (free of fragment, not a login
    redirect, not a file by extension, not yet visited) and whose fetch
    fails, by a status other than 200 or otherwise, is the one page of the
    crawl: [crawl_website] returns it as the only page, with no files, and
    it is visited. *)
Theorem failed_seed_is_a_page
    (W : World) (pop : nat -> gset string -> string) (fuel : nat)
    (seed : string) (visited_arg : option (gset string)) (proc : process) :
  let visited :=
    match visited_arg with
    | Some v => v
    | None => default_visited_urls proc
    end in
  valid_pop pop ->
  launch_ok W = true ->
  strip_url_fragment seed = seed ->
  is_login_redirect seed = inr false ->
  any_ext_in crawl_file_extensions seed = false ->
  seed ∉ visited ->
  fetch_fails (page_goto W seed) = true ->
  (2 <= fuel)%nat ->
  exists r proc',
    crawl_website W pop fuel seed visited_arg proc = Some (r, proc') /\
    call_outcome r = Returned {[seed]} ∅ /\
    call_visited r = {[seed]} ∪ visited /\
    gotos (call_trace r) = [seed].
Proof.
  intros visited Hpop Hlaunch Hstrip Hlogin Hext Hvis Hfail Hfuel.
  destruct fuel as [|[|fuel]]; [lia | lia |].
  unfold crawl_website. rewrite Hlaunch. cbn [negb]. fold visited.
  set (d := resolve_crawl_delay W seed).
  set (st0 := init_state W seed visited).
  destruct (loop_body_failed_fetch W seed d seed st0) as (sleeps & Hs & Hbody);
    rewrite ?Hstrip; auto.
  rewrite Hstrip in Hbody.
  change (urls_to_crawl st0) with ({[seed]} : gset string) in Hbody.
  cbn [crawl_loop].
  change (urls_to_crawl st0) with ({[seed]} : gset string).
  assert (Hne : {[seed]} ≠ (∅ : gset string))
    by apply (non_empty_singleton_L (C := gset string)).
  assert (Hp : pop 0%nat {[seed]} = seed)
    by (apply (elem_of_singleton_1 (C := gset string)), Hpop, Hne).
  destruct (decide ({[seed]} = (∅ : gset string))) as [He|_]; [contradiction|].
  unfold st0 at 1. rewrite count_init_state. cbn [Nat.ltb Nat.leb].
  rewrite Hp, Hbody. cbn [urls_to_crawl].
  destruct (decide ({[seed]} ∖ {[seed]} = (∅ : gset string))) as [_|Hd];
    [|exfalso; apply Hd, (difference_diag_L (C := gset string))].
  eexists _, _. split; [reflexivity|].
  cbn [call_outcome call_visited call_trace pages_set files_set visited_urls trace st0 init_state].
  split_and!.
  - rewrite (right_id_L ∅ (∪)). reflexivity.
  - reflexivity.
  - rewrite !gotos_app, Hs. cbn [get_crawl_delay_from_robots_txt snd gotos app].
    reflexivity.
Qed.

Lemma failed_seed_is_a_page_witness :
  exists r proc',
    crawl_website Sites.down pop_first 2 Sites.home None fresh_process = Some (r, proc') /\
    call_outcome r = Returned {[Sites.home]} ∅ /\
    call_visited r = {[Sites.home]} ∪ ∅ /\
    gotos (call_trace r) = [Sites.home].
Proof.
  apply (failed_seed_is_a_page Sites.down pop_first 2 Sites.home None fresh_process).
  - exact pop_first_valid.
  - reflexivity.
  - reflexivity.
  - vm_compute. reflexivity.
  - vm_compute. reflexivity.
  - apply not_elem_of_empty.
  - reflexivity.
  - lia.
Defined.

(** ** Fragments in the file set *)

(** C10: the file and image links collected from a rendered page, that
    is, when the page answered 200 and the sleep after the navigation did
    not raise, enter the file set as extracted, while a popped URL is
    stripped of its fragment before it can become a page or a file; so the
    file set can hold two links that differ in their fragment only, each
    counted. *)
Theorem files_keep_their_fragments :
  (forall W url crawl_delay popped st st' dom files_on_page images_on_page,
     loop_body W url crawl_delay popped st = inr st' ->
     is_login_redirect (strip_url_fragment popped) = inr false ->
     strip_url_fragment popped ∉ visited_urls st ->
     any_ext_in crawl_file_extensions (strip_url_fragment popped) = false ->
     page_goto W (strip_url_fragment popped) = GotoResponse 200 dom ->
     sleep_raises crawl_delay = false ->
     count_files_and_images dom = (files_on_page, images_on_page) ->
     files_set st' = files_set st ∪ list_to_set (files_on_page ++ images_on_page)) /\
  (forall W url crawl_delay popped st st',
     loop_body W url crawl_delay popped st = inr st' ->
     has_char "#" (strip_url_fragment popped) = false /\
     pages_set st' ⊆ {[strip_url_fragment popped]} ∪ pages_set st /\
     (any_ext_in crawl_file_extensions (strip_url_fragment popped) = true ->
      files_set st' ⊆ {[strip_url_fragment popped]} ∪ files_set st)) /\
  (exists r proc,
     crawl_website Sites.fragment_files pop_first 2 Sites.home None fresh_process
       = Some (r, proc) /\
     call_outcome r
       = Returned {[Sites.home]} {["http://o/d.pdf#p1"; "http://o/d.pdf#p2"]} /\
     strip_url_fragment "http://o/d.pdf#p1" = strip_url_fragment "http://o/d.pdf#p2" /\
     size ({["http://o/d.pdf#p1"; "http://o/d.pdf#p2"]} : gset string) = 2%nat).
Proof.
  split_and!.
  - intros W url d popped st st' dom fs imgs Hb Hl Hv Hx Hg Hs Hc.
    unfold loop_body, log in Hb. rewrite Hl, Hx, Hg, Hs, Hc in Hb.
    destruct (decide (strip_url_fragment popped ∈ visited_urls st)); [contradiction|].
    rewrite Z.eqb_refl in Hb. cbn [negb files_set] in Hb.
    injection Hb as <-. reflexivity.
  - intros W url d popped st st' Hb.
    split; [apply strip_url_fragment_no_hash|].
    apply loop_body_iteration in Hb.
    destruct Hb as [_ ->|_ _ _ ->|ex ls sl _ _ Hx _ _ ->];
      cbn [pages_set files_set]; split;
      try (intros; first [apply union_subseteq_r | reflexivity]).
    intros Hx'. congruence.
  - eexists _, _. split; [vm_compute; reflexivity|].
    split_and!; vm_compute; reflexivity.
Qed.

Lemma files_keep_their_fragments_witness :
  files_set (mkState {[Sites.home]} {["http://o/d.pdf#p1"; "http://o/d.pdf#p2"]}
                     ∅ {[Sites.home]}
                     [Launch; Get "http://h//robots.txt"; Goto Sites.home; Sleep 1])
  = files_set (init_state Sites.fragment_files Sites.home ∅)
    ∪ list_to_set (["http://o/d.pdf#p1"; "http://o/d.pdf#p2"] ++ []).
Proof.
  apply (proj1 files_keep_their_fragments Sites.fragment_files Sites.home 1 Sites.home
           (init_state Sites.fragment_files Sites.home ∅) _
           (mkDom (Some ["http://o/d.pdf#p1"; "http://o/d.pdf#p2"]) (Some [])
                  (Some ["http://o/d.pdf#p1"; "http://o/d.pdf#p2"]))).
  - vm_compute. reflexivity.
  - vm_compute. reflexivity.
  - apply not_elem_of_empty.
  - vm_compute. reflexivity.
  - reflexivity.
  - vm_compute. reflexivity.
  - vm_compute. reflexivity.
Defined.

(** ** Where the program departs from the claims *)

(** C3: a URL that [urlparse] refuses is not caught.  [is_login_redirect]
    is called outside the [try], so the [ValueError] of a network location
    with an unclosed bracket leaves [crawl_website], whether the URL is the
    seed or a link found on a page; the frontier that remains is
    abandoned. *)
Theorem malformed_url_escapes :
  crawl_website Sites.down pop_first 1 "http://[" None fresh_process
    = Some (mkCall (Raised ValueError) ∅ [Launch; Get "http://[/robots.txt"],
            fresh_process) /\
  exists r proc,
    crawl_website Sites.bad_link pop_first 2 Sites.home None fresh_process
      = Some (r, proc) /\
    call_outcome r = Raised ValueError /\
    call_trace r = [Launch; Get "http://h//robots.txt"; Goto Sites.home; Sleep 1].
Proof.
  split; [vm_compute; reflexivity|].
  eexists _, _. split; [vm_compute; reflexivity|].
  split; reflexivity.
Qed.

(** C4: the default [visited_urls] is one set shared by all calls that
    omit the argument.  A second crawl of the same site in the same process
    starts with the seed already visited and returns no page at all; only a
    caller that passes its own empty set gets a fresh run. *)
Theorem default_visited_leaks :
  crawl_website Sites.down pop_first 2 Sites.home None fresh_process
    = Some (mkCall (Returned {[Sites.home]} ∅) {[Sites.home]}
                   [Launch; Get "http://h//robots.txt"; Goto Sites.home; Sleep 1; Close],
            mkProcess {[Sites.home]}) /\
  crawl_website Sites.down pop_first 2 Sites.home None (mkProcess {[Sites.home]})
    = Some (mkCall (Returned ∅ ∅) {[Sites.home]}
                   [Launch; Get "http://h//robots.txt"; Close],
            mkProcess {[Sites.home]}) /\
  crawl_website Sites.down pop_first 2 Sites.home (Some ∅) (mkProcess {[Sites.home]})
    = Some (mkCall (Returned {[Sites.home]} ∅) {[Sites.home]}
                   [Launch; Get "http://h//robots.txt"; Goto Sites.home; Sleep 1; Close],
            mkProcess {[Sites.home]}).
Proof. split_and!; vm_compute; reflexivity. Qed.

(** C8: no sleep follows a navigation that raises.  The [sleep] is the
    statement after [page.goto] inside the [try], so an exception skips it:
    on a home page with two links that fail to load, the second failing
    navigation follows the first with no sleep between them. *)
Theorem no_sleep_after_navigation_error :
  exists r proc,
    crawl_website Sites.dead_links pop_first 4 Sites.home None fresh_process
      = Some (r, proc) /\
    call_trace r
      = [Launch; Get "http://h//robots.txt"; Goto Sites.home; Sleep 1;
         Goto "http://h/a"; Goto "http://h/b"; Close] /\
    polite (call_trace r) = false.
Proof.
  eexists _, _. split; [vm_compute; reflexivity|].
  split; reflexivity.
Qed.

(** A navigation that does not raise is followed by the sleep, whatever
    its answer, when the delay is one that [asyncio.sleep] takes. *)
Lemma sleep_after_navigation_answer
    (W : World) (url : string) (crawl_delay : Z) (popped : string)
    (st st' : crawl_state) :
  loop_body W url crawl_delay popped st = inr st' ->
  page_goto W (strip_url_fragment popped) <> GotoRaises ->
  sleep_raises crawl_delay = false ->
  trace st' = trace st \/
  trace st' = (trace st ++ [Goto (strip_url_fragment popped); Sleep crawl_delay])%list.
Proof.
  unfold loop_body, log. intros H Hg Hs. rewrite Hs in H.
  destruct (is_login_redirect (strip_url_fragment popped)) as [e|[|]];
    [discriminate | injection H as <-; left; reflexivity |].
  destruct (decide _); [injection H as <-; left; reflexivity|].
  destruct (any_ext_in _ _); [injection H as <-; left; reflexivity|].
  cbn [pages_set files_set urls_to_crawl visited_urls trace] in H.
  destruct (page_goto W (strip_url_fragment popped)) as [| |status dom];
    [contradiction | |].
  - injection H as <-. right. cbn [trace]. rewrite <- app_assoc. reflexivity.
  - destruct (negb _); [|destruct (count_files_and_images dom)];
      injection H as <-; right; cbn [trace]; rewrite <- app_assoc; reflexivity.
Qed.

(** ** More facts about strings and URLs *)










(** What [strip_url_fragment] cuts off starts at the first [#]. *)
Lemma split_head_prefix (sep : ascii) (s h : string) (t : list string) :
  split sep s = h :: t ->
  exists rest, s = (h ++ rest)%string /\
               (rest = EmptyString \/ exists r, rest = String sep r).
Proof.
  revert h t. induction s as [|a s IH]; intros h t H; cbn [split] in H.
  - injection H as <- <-. exists EmptyString. auto.
  - destruct (Ascii.eqb a sep) eqn:E.
    + injection H as <- <-. apply Ascii.eqb_eq in E as ->.
      exists (String sep s). split; [reflexivity | right; eauto].
    + destruct (split sep s) as [|h' t'] eqn:Es; [destruct (split_nonempty _ _ Es)|].
      injection H as <- <-. destruct (IH h' t' eq_refl) as (rest & -> & Hr).
      exists rest. split; [reflexivity | exact Hr].
Qed.

Lemma strip_url_fragment_prefix (u : string) :
  exists rest, u = (strip_url_fragment u ++ rest)%string /\
               (rest = EmptyString \/ exists r, rest = String "#" r).
Proof.
  unfold strip_url_fragment. destruct (split "#" u) as [|h t] eqn:E.
  - destruct (split_nonempty _ _ E).
  - eapply split_head_prefix; eauto.
Qed.



(** ** The iteration in full *)

Lemma gotos_nav_sleep (W : World) (crawl_delay : Z) (u : string) :
  gotos (nav_sleep W crawl_delay u) = [].
Proof.
  unfold nav_sleep.
  destruct (page_goto W u), (sleep_raises crawl_delay); reflexivity.
Qed.

Lemma polite_from_app (pending : bool) (tr1 tr2 : list event) :
  polite_from pending (tr1 ++ tr2)
  = polite_from pending tr1 && polite_from (pending_after pending tr1) tr2.
Proof.
  revert pending. induction tr1 as [|e tr1 IH]; intros pending; [reflexivity|].
  destruct e; cbn [app polite_from pending_after]; rewrite ?IH;
    try reflexivity.
  rewrite andb_assoc. reflexivity.
Qed.

Lemma pending_after_app (pending : bool) (tr1 tr2 : list event) :
  pending_after pending (tr1 ++ tr2)
  = pending_after (pending_after pending tr1) tr2.
Proof.
  revert pending. induction tr1 as [|e tr1 IH]; intros pending; [reflexivity|].
  destruct e; cbn [app pending_after]; apply IH.
Qed.

Section StepFacts.

Variable W : World.
Variable url : string.
Variable crawl_delay : Z.

(** The state an iteration leaves, case by case, in terms of what the
    popped URL's page contributes. *)
Lemma loop_body_step (popped : string) (st st' : crawl_state) :
  loop_body W url crawl_delay popped st = inr st' ->
  (st' = mkState (pages_set st) (files_set st) (urls_to_crawl st ∖ {[popped]})
                 (visited_urls st) (trace st) /\
   (is_login_redirect (strip_url_fragment popped) = inr true \/
    strip_url_fragment popped ∈ visited_urls st)) \/
  (is_login_redirect (strip_url_fragment popped) = inr false /\
   (strip_url_fragment popped ∉ visited_urls st) /\
   any_ext_in crawl_file_extensions (strip_url_fragment popped) = true /\
   st' = mkState (pages_set st) ({[strip_url_fragment popped]} ∪ files_set st)
                 (urls_to_crawl st ∖ {[popped]}) (visited_urls st) (trace st)) \/
  (is_login_redirect (strip_url_fragment popped) = inr false /\
   (strip_url_fragment popped ∉ visited_urls st) /\
   any_ext_in crawl_file_extensions (strip_url_fragment popped) = false /\
   st' = mkState
           ({[strip_url_fragment popped]} ∪ pages_set st)
           (files_set st ∪
            list_to_set (if sleep_raises crawl_delay then []
                         else page_files W (strip_url_fragment popped)))
           ((urls_to_crawl st ∖ {[popped]}) ∪
            list_to_set (map strip_url_fragment
                           (List.filter (contains url)
                              (if sleep_raises crawl_delay then []
                               else page_links W (strip_url_fragment popped)))))
           ({[strip_url_fragment popped]} ∪ visited_urls st)
           ((trace st ++ [Goto (strip_url_fragment popped)])
              ++ nav_sleep W crawl_delay (strip_url_fragment popped))).
Proof.
  unfold loop_body, log. intros H.
  destruct (is_login_redirect (strip_url_fragment popped)) as [e|[|]] eqn:Hl;
    [discriminate | injection H as <-; left; auto |].
  destruct (decide (strip_url_fragment popped ∈ visited_urls st)) as [Hv|Hv];
    [injection H as <-; left; auto |].
  destruct (any_ext_in crawl_file_extensions (strip_url_fragment popped)) eqn:Hx;
    [injection H as <-; right; left; auto |].
  right. right. split_and!; auto.
  cbn [pages_set files_set urls_to_crawl visited_urls trace] in H.
  unfold page_files, page_links, nav_sleep.
  destruct (page_goto W (strip_url_fragment popped)) as [| |status dom].
  - injection H as <-. cbn [map List.filter].
    destruct (sleep_raises crawl_delay);
      rewrite !union_empty_r_gset, app_nil_r; reflexivity.
  - destruct (sleep_raises crawl_delay); injection H as <-; cbn [map List.filter];
      rewrite !union_empty_r_gset, ?app_nil_r; reflexivity.
  - destruct (sleep_raises crawl_delay).
    { injection H as <-. cbn [map List.filter].
      rewrite !union_empty_r_gset, app_nil_r. reflexivity. }
    destruct (status =? 200); cbn [negb] in H.
    + destruct (count_files_and_images dom) as [fs imgs].
      injection H as <-. reflexivity.
    + injection H as <-. cbn [map List.filter].
      rewrite !union_empty_r_gset. reflexivity.
Qed.

Variable visited0 : gset string.

Local Abbreviation reached :=
  (loop_reaches W url crawl_delay (init_state W url visited0)).

(** The visited set is what the caller gave plus the pages of this run,
    and the pages are new to it. *)
Lemma reached_visited (st : crawl_state) :
  reached st ->
  visited_urls st = visited0 ∪ pages_set st /\ pages_set st ## visited0.
Proof.
  intros H. remember (init_state W url visited0) as st0 eqn:E.
  induction H as [|st1 popped st' st'' _ IH Hin Hc Hb].
  - subst. cbn [init_state visited_urls pages_set]. split; set_solver.
  - destruct (IH E) as [Hv Hd].
    destruct (loop_body_step _ _ _ Hb) as [[-> _]|[(_ & _ & _ & ->)|(_ & Hn & _ & ->)]];
      cbn [visited_urls pages_set]; [auto | auto |].
    rewrite Hv in Hn |- *. split; set_solver.
Qed.

(** The navigations are the pages. *)
Lemma reached_gotos (st : crawl_state) :
  reached st -> forall u, u ∈ gotos (trace st) <-> u ∈ pages_set st.
Proof.
  intros H. remember (init_state W url visited0) as st0 eqn:E.
  induction H as [|st1 popped st' st'' _ IH Hin Hc Hb].
  - subst. intros u. cbn. split; [intros Hu; inversion Hu | set_solver].
  - specialize (IH E).
    destruct (loop_body_step _ _ _ Hb) as [[-> _]|[(_ & _ & _ & ->)|(_ & _ & _ & ->)]];
      cbn [trace pages_set]; [auto | auto |].
    intros u. rewrite !gotos_app, gotos_nav_sleep, app_nil_r. cbn [gotos].
    rewrite elem_of_app, list_elem_of_singleton, IH. set_solver.
Qed.

(** A page is neither a login redirect nor a file by its extension. *)
Lemma reached_pages (st : crawl_state) :
  reached st ->
  forall p, p ∈ pages_set st ->
    is_login_redirect p = inr false /\
    any_ext_in crawl_file_extensions p = false.
Proof.
  intros H. remember (init_state W url visited0) as st0 eqn:E.
  induction H as [|st1 popped st' st'' _ IH Hin Hc Hb].
  - subst. intros p Hp. cbn in Hp. set_solver.
  - specialize (IH E).
    destruct (loop_body_step _ _ _ Hb) as [[-> _]|[(_ & _ & _ & ->)|(Hl & _ & Hx & ->)]];
      cbn [pages_set]; [auto | auto |].
    intros p Hp. apply elem_of_union in Hp as [Hp|Hp]; [|auto].
    apply elem_of_singleton in Hp as ->. auto.
Qed.

(** The frontier holds the seed and stripped internal links only; the
    pages are their stripped forms. *)
Lemma reached_scope (st : crawl_state) :
  reached st ->
  (forall u, u ∈ urls_to_crawl st -> in_scope W url u) /\
  (forall p, p ∈ pages_set st ->
     exists u, in_scope W url u /\ p = strip_url_fragment u) /\
  (forall f, f ∈ files_set st ->
     (exists u, in_scope W url u /\ f = strip_url_fragment u /\
                any_ext_in crawl_file_extensions f = true) \/
     (exists p, p ∈ pages_set st /\ In f (page_files W p))).
Proof.
  intros H. remember (init_state W url visited0) as st0 eqn:E.
  induction H as [|st1 popped st' st'' _ IH Hin Hc Hb].
  - subst. cbn [init_state urls_to_crawl pages_set files_set]. split_and!.
    + intros u Hu. apply elem_of_singleton in Hu as ->. left. reflexivity.
    + intros p Hp. set_solver.
    + intros f Hf. set_solver.
  - destruct (IH E) as (Hf & Hp & Hfiles).
    assert (Hpop : in_scope W url popped) by auto.
    destruct (loop_body_step _ _ _ Hb) as [[-> _]|[(_ & _ & Hx & ->)|(_ & _ & _ & ->)]];
      cbn [urls_to_crawl pages_set files_set].
    + split_and!; [|exact Hp|exact Hfiles].
      intros u Hu. apply Hf. set_solver.
    + split_and!; [|exact Hp|].
      * intros u Hu. apply Hf. set_solver.
      * intros f Hu. apply elem_of_union in Hu as [Hu|Hu]; [|auto].
        apply elem_of_singleton in Hu as ->. left. eauto.
    + split_and!.
      * intros u Hu. apply elem_of_union in Hu as [Hu|Hu].
        -- apply Hf. set_solver.
        -- apply elem_of_list_to_set, list_elem_of_In, in_map_iff in Hu
             as (link & <- & Hl).
           apply filter_In in Hl as [Hl Hc']. right.
           destruct (sleep_raises crawl_delay); [destruct Hl | eauto].
      * intros p Hu. apply elem_of_union in Hu as [Hu|Hu]; [|auto].
        apply elem_of_singleton in Hu as ->. eauto.
      * intros f Hu. apply elem_of_union in Hu as [Hu|Hu].
        -- destruct (Hfiles f Hu) as [?|(p & Hpp & Hin')]; [left; assumption|].
           right. exists p. split; [set_solver | exact Hin'].
        -- apply elem_of_list_to_set, list_elem_of_In in Hu.
           destruct (sleep_raises crawl_delay); [destruct Hu|].
           right. exists (strip_url_fragment popped). split; [set_solver | exact Hu].
Qed.

(** The trace of the loop: the launch, the one robots.txt request, then
    navigations and sleeps of the crawl delay only. *)
Lemma reached_trace (st : crawl_state) :
  reached st ->
  exists nav,
    trace st = Launch :: Get (robots_url url) :: nav /\
    forallb is_navigation nav = true /\
    forallb (is_sleep_of crawl_delay) nav = true.
Proof.
  intros H. remember (init_state W url visited0) as st0 eqn:E.
  induction H as [|st1 popped st' st'' _ IH Hin Hc Hb].
  - subst. exists []. split_and!; reflexivity.
  - destruct (IH E) as (nav & Ht & Hn & Hs).
    destruct (loop_body_step _ _ _ Hb) as [[-> _]|[(_ & _ & _ & ->)|(_ & _ & _ & ->)]];
      cbn [trace]; [eauto | eauto |].
    exists ((nav ++ [Goto (strip_url_fragment popped)])
              ++ nav_sleep W crawl_delay (strip_url_fragment popped))%list.
    rewrite Ht. split_and!.
    + reflexivity.
    + rewrite !forallb_app, Hn. unfold nav_sleep.
      destruct (page_goto W _), (sleep_raises crawl_delay); reflexivity.
    + rewrite !forallb_app, Hs. unfold nav_sleep.
      destruct (page_goto W _), (sleep_raises crawl_delay);
        cbn [forallb is_sleep_of andb]; rewrite ?Z.eqb_refl; reflexivity.
Qed.

(** Where neither a navigation nor the sleep raises, a sleep separates any
    two navigations. *)
Lemma reached_polite (st : crawl_state) :
  (forall u, page_goto W u <> GotoRaises) ->
  sleep_raises crawl_delay = false ->
  reached st ->
  polite (trace st) = true /\ pending_after false (trace st) = false.
Proof.
  intros Hno Hsr H. unfold polite. remember (init_state W url visited0) as st0 eqn:E.
  induction H as [|st1 popped st' st'' _ IH Hin Hc Hb].
  - subst. split; reflexivity.
  - destruct (IH E) as (Hp & Hq).
    destruct (loop_body_step _ _ _ Hb) as [[-> _]|[(_ & _ & _ & ->)|(_ & _ & _ & ->)]];
      cbn [trace]; [auto | auto |].
    assert (Hs : nav_sleep W crawl_delay (strip_url_fragment popped)
                 = [Sleep crawl_delay]).
    { unfold nav_sleep. specialize (Hno (strip_url_fragment popped)). rewrite Hsr.
      destruct (page_goto W _); [contradiction | reflexivity | reflexivity]. }
    rewrite Hs, !polite_from_app, !pending_after_app, Hp, Hq. split; reflexivity.
Qed.

(** At most 201 pages. *)
Lemma reached_page_bound (st : crawl_state) :
  reached st -> (size (pages_set st) <= 201)%nat.
Proof.
  intros H. remember (init_state W url visited0) as st0 eqn:E.
  induction H as [|st1 popped st' st'' _ IH Hin Hc Hb].
  - subst. cbn [init_state pages_set]. rewrite size_empty. lia.
  - specialize (IH E).
    destruct (loop_body_step _ _ _ Hb) as [[-> _]|[(_ & _ & _ & ->)|(_ & _ & _ & ->)]];
      cbn [pages_set]; [auto | auto |].
    pose proof (size_insert_le (strip_url_fragment popped) (pages_set st')).
    unfold count in Hc. lia.
Qed.


(** Where the sleep does not raise, every internal link of a crawled page
    is still in the frontier or has been dealt with. *)
Lemma reached_closure (st : crawl_state) :
  sleep_raises crawl_delay = false ->
  reached st ->
  forall p link,
    p ∈ pages_set st -> In link (page_links W p) -> contains url link = true ->
    strip_url_fragment link ∈ urls_to_crawl st \/
    strip_url_fragment link ∈ pages_set st \/
    strip_url_fragment link ∈ files_set st \/
    strip_url_fragment link ∈ visited0 \/
    is_login_redirect (strip_url_fragment link) = inr true.
Proof.
  intros Hsr H. remember (init_state W url visited0) as st0 eqn:E.
  induction H as [|st1 popped st' st'' Hr IH Hin Hc Hb].
  - subst. intros p link Hp. cbn in Hp. set_solver.
  - specialize (IH E). subst st1.
    pose proof (loop_body_step _ _ _ Hb) as Hstep. rewrite Hsr in Hstep.
    destruct (reached_visited st' Hr) as [Hv _].
    assert (Hold : forall link,
      strip_url_fragment link ∈ urls_to_crawl st' ->
      strip_url_fragment link ∈ urls_to_crawl st'' \/
      strip_url_fragment link ∈ pages_set st'' \/
      strip_url_fragment link ∈ files_set st'' \/
      strip_url_fragment link ∈ visited0 \/
      is_login_redirect (strip_url_fragment link) = inr true).
    { intros link Hl.
      destruct (decide (strip_url_fragment link = popped)) as [Heq|Hne].
      - assert (Hs : strip_url_fragment popped = strip_url_fragment link)
          by (rewrite <- Heq; apply strip_url_fragment_idempotent).
        destruct Hstep
          as [[-> [Hlg|Hvis]]|[(_ & _ & _ & ->)|(_ & _ & _ & ->)]];
          cbn [urls_to_crawl pages_set files_set].
        + rewrite Hs in Hlg. auto.
        + rewrite Hs, Hv in Hvis. apply elem_of_union in Hvis as [?|?]; auto.
        + rewrite Hs. right. right. left. set_solver.
        + rewrite Hs. right. left. set_solver.
      - destruct Hstep
          as [[-> _]|[(_ & _ & _ & ->)|(_ & _ & _ & ->)]];
          cbn [urls_to_crawl pages_set files_set]; left; set_solver. }
    assert (Hmono : pages_set st' ⊆ pages_set st'' /\ files_set st' ⊆ files_set st'')
      by (destruct (loop_body_mono _ _ _ _ _ _ Hb) as (? & ? & _); auto).
    destruct Hmono as [Hmp Hmf].
    intros p link Hp Hl Hc'.
    assert (Hcase : p ∈ pages_set st' \/
                    (p = strip_url_fragment popped /\
                     strip_url_fragment link ∈ urls_to_crawl st'')).
    { destruct Hstep
        as [[-> _]|[(_ & _ & _ & ->)|(_ & _ & _ & ->)]];
        cbn [pages_set urls_to_crawl] in *; [auto | auto |].
      apply elem_of_union in Hp as [Hp|Hp]; [|auto].
      apply elem_of_singleton in Hp as ->. right. split; [reflexivity|].
      apply elem_of_union. right.
      apply elem_of_list_to_set, list_elem_of_In, in_map, filter_In. auto. }
    destruct Hcase as [Hp'|[_ Hfr]]; [|auto].
    destruct (IH p link Hp' Hl Hc') as [Hf|[Hf|[Hf|[Hf|Hf]]]]; auto.
Qed.

End StepFacts.

(** ** From the loop to [crawl_website] *)

Lemma run_exit (W : World) (url : string) (crawl_delay : Z)
    (st final : crawl_state) :
  loop_run W url crawl_delay st (final, None) ->
  urls_to_crawl final = ∅ \/ (200 < count final)%nat.
Proof.
  intros H. remember (final, None) as r eqn:E. revert final E.
  induction H; intros final E; try (injection E as <-; auto; fail); auto.
  discriminate.
Qed.

Lemma run_raised (W : World) (url : string) (crawl_delay : Z)
    (st final : crawl_state) (e : exn) :
  loop_run W url crawl_delay st (final, Some e) ->
  exists popped,
    popped ∈ urls_to_crawl final /\
    loop_body W url crawl_delay popped final = inl e.
Proof.
  intros H. remember (final, Some e) as r eqn:E. revert final e E.
  induction H; intros final e0 E; try discriminate; auto.
  injection E as <- <-. eauto.
Qed.

Lemma crawl_website_cases
    (W : World) (pop : nat -> gset string -> string) (fuel : nat) (url : string)
    (visited_arg : option (gset string)) (proc proc' : process) (r : call_result) :
  let visited :=
    match visited_arg with
    | Some v => v
    | None => default_visited_urls proc
    end in
  valid_pop pop ->
  crawl_website W pop fuel url visited_arg proc = Some (r, proc') ->
  (launch_ok W = false /\ r = mkCall (Raised BrowserError) visited [Launch] /\
   proc' = proc) \/
  (launch_ok W = true /\
   exists st oe,
     loop_run W url (resolve_crawl_delay W url) (init_state W url visited) (st, oe) /\
     call_visited r = visited_urls st /\
     proc' = match visited_arg with
             | Some _ => proc
             | None => mkProcess (visited_urls st)
             end /\
     match oe with
     | Some e => call_outcome r = Raised e /\ call_trace r = trace st
     | None => call_outcome r = Returned (pages_set st) (files_set st) /\
               call_trace r = (trace st ++ [Close])%list
     end).
Proof.
  intros visited Hpop H. unfold crawl_website in H. fold visited in H.
  destruct (launch_ok W); cbn [negb] in H.
  - right. split; [reflexivity|].
    destruct (crawl_loop W url _ pop fuel 0 _) as [[st oe]|] eqn:Hl; [|discriminate].
    apply crawl_loop_run in Hl; [|exact Hpop].
    exists st, oe. destruct oe as [e|]; injection H as <- <-; auto.
  - left. injection H as <- <-. auto.
Qed.

Lemma crawl_website_returned
    (W : World) (pop : nat -> gset string -> string) (fuel : nat) (url : string)
    (visited_arg : option (gset string)) (proc proc' : process) (r : call_result)
    (pages files : gset string) :
  let visited :=
    match visited_arg with
    | Some v => v
    | None => default_visited_urls proc
    end in
  valid_pop pop ->
  crawl_website W pop fuel url visited_arg proc = Some (r, proc') ->
  call_outcome r = Returned pages files ->
  exists st,
    loop_reaches W url (resolve_crawl_delay W url) (init_state W url visited) st /\
    pages = pages_set st /\ files = files_set st /\
    call_visited r = visited_urls st /\
    call_trace r = (trace st ++ [Close])%list /\
    (urls_to_crawl st = ∅ \/ (200 < count st)%nat) /\
    proc' = match visited_arg with
            | Some _ => proc
            | None => mkProcess (visited_urls st)
            end.
Proof.
  intros visited Hpop H Ho.
  destruct (crawl_website_cases W pop fuel url visited_arg proc proc' r Hpop H)
    as [(_ & -> & _)|(_ & st & oe & Hrun & Hv & Hp & Hcase)]; [discriminate|].
  destruct oe as [e|]; destruct Hcase as [Ho' Ht]; [congruence|].
  rewrite Ho in Ho'. injection Ho' as -> ->.
  exists st. split_and!; auto.
  - apply (run_reaches _ _ _ _ _ Hrun).
  - eapply run_exit; eauto.
Qed.

Lemma urlparse_raises_ValueError (u : string) (e : exn) :
  urllib_parse.urlparse u = inl e -> e = ValueError.
Proof.
  unfold urllib_parse.urlparse.
  destruct (urllib_parse.split_scheme _) as [sch rest].
  set (net := match rest with
              | String "/" (String "/" rest') => _
              | _ => _
              end).
  assert (Hnet : forall e', net = inl e' -> e' = ValueError).
  { unfold net. intros e'.
    destruct rest as [|a [|b rest']]; try discriminate.
    - destruct a as [[] [] [] [] [] [] [] []]; discriminate.
    - destruct a as [[] [] [] [] [] [] [] []]; try discriminate.
      destruct b as [[] [] [] [] [] [] [] []]; try discriminate.
      destruct (urllib_parse.splitnetloc rest') as [nl r].
      destruct (xorb _ _); [congruence|].
      destruct (_ && _); [congruence | discriminate]. }
  destruct net as [e'|[nl r]]; [intros H; injection H as <-; auto|].
  destruct (match partition "#" r with Some p => p | None => (r, EmptyString) end)
    as [u1 frag].
  destruct (match partition "?" u1 with Some p => p | None => (u1, EmptyString) end)
    as [u2 qry].
  destruct (if _ && _ then _ else _) as [u3 prm]. discriminate.
Qed.

Lemma loop_body_raises_ValueError
    (W : World) (url : string) (crawl_delay : Z) (popped : string)
    (st : crawl_state) (e : exn) :
  loop_body W url crawl_delay popped st = inl e -> e = ValueError.
Proof.
  intros H. apply loop_body_raises in H. unfold is_login_redirect in H.
  destruct (urllib_parse.urlparse _) as [e'|parsed] eqn:Hp.
  - injection H as <-. eapply urlparse_raises_ValueError; eauto.
  - destruct (_ && _); discriminate.
Qed.

(** ** Every crawl ends, whatever [pop] picks *)

Lemma crawl_loop_more_fuel
    (W : World) (url : string) (crawl_delay : Z)
    (pop : nat -> gset string -> string) (fuel fuel' : nat) :
  (fuel <= fuel')%nat ->
  forall i st r,
    crawl_loop W url crawl_delay pop fuel i st = Some r ->
    crawl_loop W url crawl_delay pop fuel' i st = Some r.
Proof.
  revert fuel'. induction fuel as [|fuel IH]; intros fuel' Hle i st r H;
    [discriminate|].
  destruct fuel' as [|fuel']; [lia|].
  cbn [crawl_loop] in *.
  destruct (decide (urls_to_crawl st = ∅)); [exact H|].
  destruct (200 <? count st)%nat; [exact H|].
  destruct (loop_body W url crawl_delay (pop i (urls_to_crawl st)) st); [exact H|].
  apply IH; [lia | exact H].
Qed.

Lemma crawl_loop_ends_aux
    (W : World) (url : string) (crawl_delay : Z)
    (pop : nat -> gset string -> string) (budget : nat) :
  valid_pop pop ->
  forall (frontier : nat) (st : crawl_state) (i : nat),
    pages_set st ⊆ visited_urls st ->
    (201 - count st <= budget)%nat ->
    (size (urls_to_crawl st) <= frontier)%nat ->
    exists fuel r, crawl_loop W url crawl_delay pop fuel i st = Some r.
Proof.
  intros Hpop. induction budget as [|budget IHb]; intros frontier st i Hinv Hb Hf.
  { exists 1%nat, (st, None). cbn [crawl_loop].
    destruct (decide (urls_to_crawl st = ∅)); [reflexivity|].
    destruct (Nat.ltb_spec 200 (count st)); [reflexivity | lia]. }
  revert st i Hinv Hb Hf.
  induction frontier as [|frontier IHf]; intros st i Hinv Hb Hf.
  { exists 1%nat, (st, None). cbn [crawl_loop].
    destruct (decide (urls_to_crawl st = ∅)) as [|Hne]; [reflexivity|].
    exfalso. apply Hne, leibniz_equiv, size_empty_inv. lia. }
  destruct (decide (urls_to_crawl st = ∅)) as [He|He].
  { exists 1%nat, (st, None). cbn [crawl_loop].
    destruct (decide (urls_to_crawl st = ∅)); [reflexivity | contradiction]. }
  destruct (Nat.ltb_spec 200 (count st)) as [Hc|Hc].
  { exists 1%nat, (st, None). cbn [crawl_loop].
    destruct (decide (urls_to_crawl st = ∅)); [reflexivity|].
    destruct (Nat.ltb_spec 200 (count st)); [reflexivity | lia]. }
  pose proof (Hpop i _ He) as Hin.
  set (popped := pop i (urls_to_crawl st)) in *.
  destruct (loop_body W url crawl_delay popped st) as [e|st'] eqn:Hbody.
  { exists 1%nat, (st, Some e). cbn [crawl_loop].
    destruct (decide (urls_to_crawl st = ∅)); [contradiction|].
    destruct (Nat.ltb_spec 200 (count st)); [lia|].
    fold popped. rewrite Hbody. reflexivity. }
  assert (Hnext : exists fuel r,
             crawl_loop W url crawl_delay pop fuel (S i) st' = Some r).
  { pose proof (loop_body_iteration _ _ _ _ _ _ Hbody) as Hit.
    assert (Hpop' : (size (urls_to_crawl st ∖ {[popped]}) <= frontier)%nat).
    { rewrite size_difference by (apply singleton_subseteq_l, Hin).
      rewrite size_singleton. lia. }
    destruct Hit as [_ ->|_ _ _ ->|ex ls sl _ Hn _ _ _ ->].
    - apply IHf; cbn [pages_set files_set urls_to_crawl visited_urls];
        [exact Hinv | exact Hb | exact Hpop'].
    - apply IHf; cbn [pages_set files_set urls_to_crawl visited_urls];
        [exact Hinv | | exact Hpop'].
      unfold count in *. cbn [pages_set files_set].
      pose proof (subseteq_size (files_set st)
                    ({[strip_url_fragment popped]} ∪ files_set st)
                    (union_subseteq_r _ _)). lia.
    - eapply (IHb _ _); cbn [pages_set files_set urls_to_crawl visited_urls];
        [apply union_mono_l, Hinv | | reflexivity].
      unfold count in *. cbn [pages_set files_set].
      rewrite size_insert_fresh by (intros Hp; apply Hn, Hinv, Hp).
      pose proof (subseteq_size (files_set st) (files_set st ∪ list_to_set ex)
                    (union_subseteq_l _ _)). lia. }
  destruct Hnext as (fuel & r & Hr). exists (S fuel), r. cbn [crawl_loop].
  destruct (decide (urls_to_crawl st = ∅)); [contradiction|].
  destruct (Nat.ltb_spec 200 (count st)); [lia|].
  fold popped. rewrite Hbody. exact Hr.
Qed.

(** ** What a crawl returns *)

Lemma small_crawl :
  crawl_website MoreSites.small pop_first 10 Sites.home None fresh_process
  = Some (MoreSites.small_call, mkProcess MoreSites.small_pages).
Proof. vm_compute. reflexivity. Qed.

(** X1: the set a crawl leaves as visited is the set it started from plus
    the pages it returns, none of which was in it before; a crawl that was
    given no set leaves this union as the default of the next call. *)
Theorem crawl_visited_accounting
    (W : World) (pop : nat -> gset string -> string) (fuel : nat) (url : string)
    (visited_arg : option (gset string)) (proc proc' : process) (r : call_result)
    (pages files : gset string) :
  let visited :=
    match visited_arg with
    | Some v => v
    | None => default_visited_urls proc
    end in
  valid_pop pop ->
  crawl_website W pop fuel url visited_arg proc = Some (r, proc') ->
  call_outcome r = Returned pages files ->
  call_visited r = visited ∪ pages /\
  pages ## visited /\
  proc' = match visited_arg with
          | Some _ => proc
          | None => mkProcess (default_visited_urls proc ∪ pages)
          end.
Proof.
  intros visited Hpop H Ho.
  destruct (crawl_website_returned W pop fuel url visited_arg proc proc' r
              pages files Hpop H Ho)
    as (st & Hr & -> & -> & Hv & _ & _ & ->).
  destruct (reached_visited _ _ _ _ _ Hr) as [Hvis Hd].
  rewrite Hv, Hvis. split_and!; [reflexivity | exact Hd |].
  destruct visited_arg; reflexivity.
Qed.

Lemma crawl_visited_accounting_witness :
  call_visited MoreSites.small_call = ∅ ∪ MoreSites.small_pages /\
  MoreSites.small_pages ## (∅ : gset string) /\
  mkProcess MoreSites.small_pages = mkProcess (∅ ∪ MoreSites.small_pages).
Proof.
  apply (crawl_visited_accounting MoreSites.small pop_first 10 Sites.home None
           fresh_process (mkProcess MoreSites.small_pages) MoreSites.small_call
           MoreSites.small_pages MoreSites.small_files).
  - exact pop_first_valid.
  - exact small_crawl.
  - reflexivity.
Defined.

(** X2: the pages a crawl returns are exactly the URLs it navigated to,
    each once, and there are at most 201 of them. *)
Theorem crawl_pages_are_navigations
    (W : World) (pop : nat -> gset string -> string) (fuel : nat) (url : string)
    (visited_arg : option (gset string)) (proc proc' : process) (r : call_result)
    (pages files : gset string) :
  valid_pop pop ->
  crawl_website W pop fuel url visited_arg proc = Some (r, proc') ->
  call_outcome r = Returned pages files ->
  NoDup (gotos (call_trace r)) /\
  (forall u, u ∈ gotos (call_trace r) <-> u ∈ pages) /\
  length (gotos (call_trace r)) = size pages /\
  (size pages <= 201)%nat.
Proof.
  intros Hpop H Ho.
  destruct (crawl_website_returned W pop fuel url visited_arg proc proc' r
              pages files Hpop H Ho)
    as (st & Hr & -> & -> & _ & Ht & _ & _).
  assert (Hg : gotos (call_trace r) = gotos (trace st)).
  { rewrite Ht, gotos_app. cbn [gotos]. apply app_nil_r. }
  rewrite Hg.
  pose proof (inv_gotos_nodup _ (reaches_inv _ _ _ _ _ (init_state_inv _ _ _) Hr))
    as Hnd.
  pose proof (reached_gotos _ _ _ _ _ Hr) as Hiff.
  split_and!; [exact Hnd | exact Hiff | | eapply reached_page_bound; eauto].
  rewrite <- (size_list_to_set (C := gset string) _ Hnd). f_equal.
  apply set_eq. intros u. rewrite elem_of_list_to_set. apply Hiff.
Qed.

Lemma crawl_pages_are_navigations_witness :
  NoDup (gotos (call_trace MoreSites.small_call)) /\
  (forall u, u ∈ gotos (call_trace MoreSites.small_call) <-> u ∈ MoreSites.small_pages) /\
  length (gotos (call_trace MoreSites.small_call)) = size MoreSites.small_pages /\
  (size MoreSites.small_pages <= 201)%nat.
Proof.
  apply (crawl_pages_are_navigations MoreSites.small pop_first 10 Sites.home None
           fresh_process (mkProcess MoreSites.small_pages) MoreSites.small_call
           MoreSites.small_pages MoreSites.small_files).
  - exact pop_first_valid.
  - exact small_crawl.
  - reflexivity.
Defined.

(** X3: a returned page is never a login redirect and never holds one of
    the 22 file extensions or a fragment; it is the stripped form of the
    seed or of an anchor, shown by some page, that holds the seed URL. *)
Theorem crawl_pages_are_in_scope
    (W : World) (pop : nat -> gset string -> string) (fuel : nat) (url : string)
    (visited_arg : option (gset string)) (proc proc' : process) (r : call_result)
    (pages files : gset string) (p : string) :
  valid_pop pop ->
  crawl_website W pop fuel url visited_arg proc = Some (r, proc') ->
  call_outcome r = Returned pages files ->
  p ∈ pages ->
  is_login_redirect p = inr false /\
  any_ext_in crawl_file_extensions p = false /\
  has_char "#" p = false /\
  exists u, in_scope W url u /\ p = strip_url_fragment u.
Proof.
  intros Hpop H Ho Hp.
  destruct (crawl_website_returned W pop fuel url visited_arg proc proc' r
              pages files Hpop H Ho)
    as (st & Hr & -> & -> & _ & _ & _ & _).
  destruct (reached_pages _ _ _ _ _ Hr p Hp) as [Hl Hx].
  destruct (reached_scope _ _ _ _ _ Hr) as (_ & Hs & _).
  split_and!; auto.
  apply (inv_pages_stripped _ (reaches_inv _ _ _ _ _ (init_state_inv _ _ _) Hr)), Hp.
Qed.

Lemma crawl_pages_are_in_scope_witness :
  is_login_redirect "http://h/a" = inr false /\
  any_ext_in crawl_file_extensions "http://h/a" = false /\
  has_char "#" "http://h/a" = false /\
  exists u, in_scope MoreSites.small Sites.home u /\ "http://h/a" = strip_url_fragment u.
Proof.
  apply (crawl_pages_are_in_scope MoreSites.small pop_first 10 Sites.home None
           fresh_process (mkProcess MoreSites.small_pages) MoreSites.small_call
           MoreSites.small_pages MoreSites.small_files).
  - exact pop_first_valid.
  - exact small_crawl.
  - reflexivity.
  - unfold MoreSites.small_pages. apply elem_of_union. right.
    apply elem_of_singleton_2. reflexivity.
Defined.

(** X4: a returned file is the stripped form of a frontier URL holding a
    file extension, or a file or image link found on a returned page. *)
Theorem crawl_files_provenance
    (W : World) (pop : nat -> gset string -> string) (fuel : nat) (url : string)
    (visited_arg : option (gset string)) (proc proc' : process) (r : call_result)
    (pages files : gset string) (f : string) :
  valid_pop pop ->
  crawl_website W pop fuel url visited_arg proc = Some (r, proc') ->
  call_outcome r = Returned pages files ->
  f ∈ files ->
  (exists u, in_scope W url u /\ f = strip_url_fragment u /\
             any_ext_in crawl_file_extensions f = true) \/
  (exists p, p ∈ pages /\ In f (page_files W p)).
Proof.
  intros Hpop H Ho Hf.
  destruct (crawl_website_returned W pop fuel url visited_arg proc proc' r
              pages files Hpop H Ho)
    as (st & Hr & -> & -> & _ & _ & _ & _).
  destruct (reached_scope _ _ _ _ _ Hr) as (_ & _ & Hs). auto.
Qed.

Lemma crawl_files_provenance_witness :
  (exists u, in_scope MoreSites.small Sites.home u /\
             "http://h/logo.png" = strip_url_fragment u /\
             any_ext_in crawl_file_extensions "http://h/logo.png" = true) \/
  (exists p, p ∈ MoreSites.small_pages /\ In "http://h/logo.png" (page_files MoreSites.small p)).
Proof.
  apply (crawl_files_provenance MoreSites.small pop_first 10 Sites.home None
           fresh_process (mkProcess MoreSites.small_pages) MoreSites.small_call
           MoreSites.small_pages MoreSites.small_files).
  - exact pop_first_valid.
  - exact small_crawl.
  - reflexivity.
  - unfold MoreSites.small_files. apply elem_of_list_to_set.
    right. left.
Defined.

(** X5: the trace of a crawl.  A crawl that returns has launched the
    browser, made one robots.txt request, then only navigated and slept the
    resolved delay, and closed the browser last.  A crawl that raises either
    failed to launch and did nothing else, or raised [ValueError] after the
    same beginning and never closed the browser. *)
Theorem crawl_trace_shape
    (W : World) (pop : nat -> gset string -> string) (fuel : nat) (url : string)
    (visited_arg : option (gset string)) (proc proc' : process) (r : call_result) :
  valid_pop pop ->
  crawl_website W pop fuel url visited_arg proc = Some (r, proc') ->
  match call_outcome r with
  | Returned _ _ =>
      exists nav,
        call_trace r = (Launch :: Get (robots_url url) :: nav ++ [Close])%list /\
        forallb is_navigation nav = true /\
        forallb (is_sleep_of (resolve_crawl_delay W url)) nav = true
  | Raised e =>
      (e = BrowserError /\ launch_ok W = false /\ call_trace r = [Launch] /\
       proc' = proc) \/
      (e = ValueError /\
       exists nav,
         call_trace r = Launch :: Get (robots_url url) :: nav /\
         forallb is_navigation nav = true)
  end.
Proof.
  intros Hpop H.
  destruct (crawl_website_cases W pop fuel url visited_arg proc proc' r Hpop H)
    as [(Hl & -> & ->)|(_ & st & oe & Hrun & _ & _ & Hcase)].
  { cbn [call_outcome call_trace]. left. auto. }
  pose proof (run_reaches _ _ _ _ _ Hrun) as Hr. cbn [fst] in Hr.
  destruct (reached_trace _ _ _ _ _ Hr) as (nav & Ht & Hn & Hs).
  destruct oe as [e|]; destruct Hcase as [-> ->].
  - right. destruct (run_raised _ _ _ _ _ _ Hrun) as (popped & _ & Hb).
    split; [eapply loop_body_raises_ValueError; eauto|]. eauto.
  - exists nav. rewrite Ht. auto.
Qed.

Lemma crawl_trace_shape_witness :
  exists nav,
    call_trace MoreSites.small_call
    = (Launch :: Get (robots_url Sites.home) :: nav ++ [Close])%list /\
    forallb is_navigation nav = true /\
    forallb (is_sleep_of (resolve_crawl_delay MoreSites.small Sites.home)) nav = true.
Proof.
  apply (crawl_trace_shape MoreSites.small pop_first 10 Sites.home None
           fresh_process (mkProcess MoreSites.small_pages) MoreSites.small_call).
  - exact pop_first_valid.
  - exact small_crawl.
Defined.

(** X6: on a site where no navigation raises and whose resolved crawl
    delay is one that [asyncio.sleep] takes (not positive, or within the
    range of the floats), a completed sleep separates any two navigations
    of the crawl. *)
Theorem crawl_polite_without_navigation_errors
    (W : World) (pop : nat -> gset string -> string) (fuel : nat) (url : string)
    (visited_arg : option (gset string)) (proc proc' : process) (r : call_result) :
  (forall u, page_goto W u <> GotoRaises) ->
  sleep_raises (resolve_crawl_delay W url) = false ->
  valid_pop pop ->
  crawl_website W pop fuel url visited_arg proc = Some (r, proc') ->
  polite (call_trace r) = true.
Proof.
  intros Hno Hsr Hpop H.
  destruct (crawl_website_cases W pop fuel url visited_arg proc proc' r Hpop H)
    as [(Hl & -> & ->)|(_ & st & oe & Hrun & _ & _ & Hcase)]; [reflexivity|].
  pose proof (run_reaches _ _ _ _ _ Hrun) as Hr. cbn [fst] in Hr.
  destruct (reached_polite _ _ _ _ _ Hno Hsr Hr) as [Hp Hq].
  destruct oe as [e|]; destruct Hcase as [_ ->]; [exact Hp|].
  unfold polite in *. rewrite polite_from_app, Hp. reflexivity.
Qed.

Lemma crawl_polite_without_navigation_errors_witness :
  polite (call_trace MoreSites.small_call) = true.
Proof.
  apply (crawl_polite_without_navigation_errors MoreSites.small pop_first 10
           Sites.home None fresh_process (mkProcess MoreSites.small_pages)).
  - intros u. unfold MoreSites.small. cbn [page_goto].
    destruct (String.eqb u Sites.home); discriminate.
  - vm_compute. reflexivity.
  - exact pop_first_valid.
  - exact small_crawl.
Defined.




(** X8: every crawl ends, on any site and whatever [pop] picks: from some
    number of iterations on, [crawl_website] gives one and the same
    result. *)
Theorem crawl_website_terminates
    (W : World) (pop : nat -> gset string -> string) (url : string)
    (visited_arg : option (gset string)) (proc : process) :
  valid_pop pop ->
  exists fuel result,
    forall fuel', (fuel <= fuel')%nat ->
      crawl_website W pop fuel' url visited_arg proc = Some result.
Proof.
  intros Hpop. unfold crawl_website.
  set (visited := match visited_arg with
                  | Some v => v
                  | None => default_visited_urls proc
                  end).
  destruct (launch_ok W); cbn [negb]; [|exists 0%nat; eauto].
  destruct (crawl_loop_ends_aux W url (resolve_crawl_delay W url) pop
              (201 - count (init_state W url visited)) Hpop
              (size (urls_to_crawl (init_state W url visited)))
              (init_state W url visited) 0%nat)
    as (fuel & [st oe] & Hr); auto.
  { apply (inv_pages_visited _ (init_state_inv W url visited)). }
  exists fuel. destruct oe as [e|]; eexists; intros fuel' Hle;
    rewrite (crawl_loop_more_fuel _ _ _ _ _ _ Hle _ _ _ Hr); reflexivity.
Qed.

Lemma crawl_website_terminates_witness :
  exists fuel result,
    forall fuel', (fuel <= fuel')%nat ->
      crawl_website MoreSites.small pop_first fuel' Sites.home None fresh_process
      = Some result.
Proof.
  apply (crawl_website_terminates MoreSites.small pop_first Sites.home None
           fresh_process pop_first_valid).
Defined.

(** X9: where the resolved crawl delay is one that [asyncio.sleep] takes
    (not positive, or within the range of the floats), a crawl that returns
    within the budget has left nothing out: each anchor of a returned page
    that holds the seed URL is, once stripped, a returned page or file, a
    URL visited before the crawl, or a login redirect. *)
Theorem crawl_exhaustive_within_budget
    (W : World) (pop : nat -> gset string -> string) (fuel : nat) (url : string)
    (visited_arg : option (gset string)) (proc proc' : process) (r : call_result)
    (pages files : gset string) (p link : string) :
  let visited :=
    match visited_arg with
    | Some v => v
    | None => default_visited_urls proc
    end in
  valid_pop pop ->
  sleep_raises (resolve_crawl_delay W url) = false ->
  crawl_website W pop fuel url visited_arg proc = Some (r, proc') ->
  call_outcome r = Returned pages files ->
  (size pages + size files <= 200)%nat ->
  p ∈ pages -> In link (page_links W p) -> contains url link = true ->
  strip_url_fragment link ∈ pages \/
  strip_url_fragment link ∈ files \/
  strip_url_fragment link ∈ visited \/
  is_login_redirect (strip_url_fragment link) = inr true.
Proof.
  intros visited Hpop Hsr H Ho Hb Hp Hl Hc.
  destruct (crawl_website_returned W pop fuel url visited_arg proc proc' r
              pages files Hpop H Ho)
    as (st & Hr & -> & -> & _ & _ & Hexit & _).
  destruct Hexit as [He|Hover]; [|unfold count in Hover; lia].
  destruct (reached_closure _ _ _ _ _ Hsr Hr p link Hp Hl Hc) as [Hf|Hrest];
    [|exact Hrest].
  rewrite He in Hf. apply not_elem_of_empty in Hf. destruct Hf.
Qed.

Lemma crawl_exhaustive_within_budget_witness :
  strip_url_fragment "http://h/d.pdf" ∈ MoreSites.small_pages \/
  strip_url_fragment "http://h/d.pdf" ∈ MoreSites.small_files \/
  strip_url_fragment "http://h/d.pdf" ∈ (∅ : gset string) \/
  is_login_redirect (strip_url_fragment "http://h/d.pdf") = inr true.
Proof.
  apply (crawl_exhaustive_within_budget MoreSites.small pop_first 10 Sites.home None
           fresh_process (mkProcess MoreSites.small_pages) MoreSites.small_call
           MoreSites.small_pages MoreSites.small_files Sites.home).
  - exact pop_first_valid.
  - vm_compute. reflexivity.
  - exact small_crawl.
  - reflexivity.
  - vm_compute. lia.
  - unfold MoreSites.small_pages. apply elem_of_union. left.
    apply elem_of_singleton_2. reflexivity.
  - vm_compute. repeat first [left; reflexivity | right].
  - vm_compute. reflexivity.
Defined.

(** ** Seeds that are no pages *)

Lemma crawl_website_one_iteration
    (W : World) (pop : nat -> gset string -> string) (fuel : nat) (url : string)
    (visited_arg : option (gset string)) (proc : process) (st1 : crawl_state) :
  let visited :=
    match visited_arg with
    | Some v => v
    | None => default_visited_urls proc
    end in
  valid_pop pop ->
  launch_ok W = true ->
  loop_body W url (resolve_crawl_delay W url) url (init_state W url visited)
    = inr st1 ->
  urls_to_crawl st1 = ∅ ->
  (2 <= fuel)%nat ->
  crawl_website W pop fuel url visited_arg proc
  = Some (mkCall (Returned (pages_set st1) (files_set st1)) (visited_urls st1)
                 (trace st1 ++ [Close]),
          match visited_arg with
          | Some _ => proc
          | None => mkProcess (visited_urls st1)
          end).
Proof.
  intros visited Hpop Hlaunch Hbody Hempty Hfuel.
  destruct fuel as [|[|fuel]]; [lia | lia |].
  unfold crawl_website. rewrite Hlaunch. cbn [negb]. fold visited.
  set (st0 := init_state W url visited) in *.
  cbn [crawl_loop].
  change (urls_to_crawl st0) with ({[url]} : gset string).
  assert (Hne : {[url]} ≠ (∅ : gset string))
    by apply (non_empty_singleton_L (C := gset string)).
  assert (Hp : pop 0%nat {[url]} = url)
    by (apply (elem_of_singleton_1 (C := gset string)), Hpop, Hne).
  destruct (decide ({[url]} = (∅ : gset string))) as [He|_]; [contradiction|].
  unfold st0 at 1. rewrite count_init_state. cbn [Nat.ltb Nat.leb].
  rewrite Hp, Hbody.
  destruct (decide (urls_to_crawl st1 = ∅)) as [_|Hd]; [|contradiction].
  reflexivity.
Qed.

Lemma loop_body_skip
    (W : World) (url : string) (crawl_delay : Z) (popped : string)
    (st : crawl_state) (b : bool) :
  is_login_redirect (strip_url_fragment popped) = inr b ->
  b = true \/ strip_url_fragment popped ∈ visited_urls st ->
  loop_body W url crawl_delay popped st
  = inr (mkState (pages_set st) (files_set st) (urls_to_crawl st ∖ {[popped]})
                 (visited_urls st) (trace st)).
Proof.
  intros Hl Hs. unfold loop_body. rewrite Hl.
  destruct b; [reflexivity|]. destruct Hs as [Hs|Hs]; [discriminate|].
  destruct (decide _); [reflexivity | contradiction].
Qed.

(** X10: a seed whose stripped URL holds one of the 22 extensions anywhere
    (in its host name as well) is filed, not crawled: the crawl returns no
    page and the seed as its one file, navigates nowhere and leaves the
    visited set as it was. *)
Theorem crawl_of_file_seed
    (W : World) (pop : nat -> gset string -> string) (fuel : nat) (url : string)
    (visited_arg : option (gset string)) (proc : process) :
  let visited :=
    match visited_arg with
    | Some v => v
    | None => default_visited_urls proc
    end in
  valid_pop pop ->
  launch_ok W = true ->
  is_login_redirect (strip_url_fragment url) = inr false ->
  strip_url_fragment url ∉ visited ->
  any_ext_in crawl_file_extensions (strip_url_fragment url) = true ->
  (2 <= fuel)%nat ->
  exists r proc',
    crawl_website W pop fuel url visited_arg proc = Some (r, proc') /\
    call_outcome r = Returned ∅ {[strip_url_fragment url]} /\
    call_visited r = visited /\
    gotos (call_trace r) = [].
Proof.
  intros visited Hpop Hlaunch Hl Hv Hx Hfuel.
  eexists _, _. split.
  - eapply (crawl_website_one_iteration W pop fuel url visited_arg proc
              (mkState ∅ ({[strip_url_fragment url]} ∪ ∅) ({[url]} ∖ {[url]})
                       visited (trace (init_state W url visited))));
      auto.
    + unfold loop_body. rewrite Hl, Hx. fold visited.
      cbn [init_state visited_urls].
      destruct (decide (strip_url_fragment url ∈ visited)); [contradiction|].
      reflexivity.
    + apply (difference_diag_L (C := gset string)).
  - cbn [call_outcome call_visited call_trace pages_set files_set visited_urls trace].
    split_and!; [|reflexivity|reflexivity].
    rewrite (right_id_L ∅ (∪)). reflexivity.
Qed.

Lemma crawl_of_file_seed_witness :
  exists r proc',
    crawl_website Sites.down pop_first 2 "http://www.docs.com/" None fresh_process
      = Some (r, proc') /\
    call_outcome r = Returned ∅ {[strip_url_fragment "http://www.docs.com/"]} /\
    call_visited r = ∅ /\
    gotos (call_trace r) = [].
Proof.
  apply (crawl_of_file_seed Sites.down pop_first 2 "http://www.docs.com/" None
           fresh_process).
  - exact pop_first_valid.
  - reflexivity.
  - vm_compute. reflexivity.
  - apply not_elem_of_empty.
  - vm_compute. reflexivity.
  - lia.
Defined.

(** X11: a seed that is a login redirect, or whose stripped URL is already
    visited, is skipped: the crawl returns no page and no file, navigates
    nowhere and leaves the visited set as it was. *)
Theorem crawl_of_skipped_seed
    (W : World) (pop : nat -> gset string -> string) (fuel : nat) (url : string)
    (visited_arg : option (gset string)) (proc : process) (b : bool) :
  let visited :=
    match visited_arg with
    | Some v => v
    | None => default_visited_urls proc
    end in
  valid_pop pop ->
  launch_ok W = true ->
  is_login_redirect (strip_url_fragment url) = inr b ->
  b = true \/ strip_url_fragment url ∈ visited ->
  (2 <= fuel)%nat ->
  exists r proc',
    crawl_website W pop fuel url visited_arg proc = Some (r, proc') /\
    call_outcome r = Returned ∅ ∅ /\
    call_visited r = visited /\
    proc' = proc /\
    gotos (call_trace r) = [].
Proof.
  intros visited Hpop Hlaunch Hl Hs Hfuel.
  eexists _, _. split.
  - eapply (crawl_website_one_iteration W pop fuel url visited_arg proc); auto.
    + fold visited. eapply loop_body_skip; eauto.
    + apply (difference_diag_L (C := gset string)).
  - cbn [call_outcome call_visited call_trace pages_set files_set visited_urls trace
         init_state].
    split_and!; try reflexivity.
    unfold visited. destruct visited_arg, proc; reflexivity.
Qed.

Lemma crawl_of_skipped_seed_witness :
  exists r proc',
    crawl_website Sites.down pop_first 2 Sites.home (Some {[Sites.home]}) fresh_process
      = Some (r, proc') /\
    call_outcome r = Returned ∅ ∅ /\
    call_visited r = {[Sites.home]} /\
    proc' = fresh_process /\
    gotos (call_trace r) = [].
Proof.
  apply (crawl_of_skipped_seed Sites.down pop_first 2 Sites.home
           (Some {[Sites.home]}) fresh_process false).
  - exact pop_first_valid.
  - reflexivity.
  - vm_compute. reflexivity.
  - right. apply elem_of_singleton_2. reflexivity.
  - lia.
Defined.

(** ** The normalizer, the link count and the packages *)

(** X12: [strip_url_fragment] cuts a URL at its first [#]: what it returns
    holds no [#], the URL is this followed by nothing or by a text that
    starts with [#], and stripping again changes nothing. *)
Theorem strip_url_fragment_cuts_at_first_hash (u : string) :
  has_char "#" (strip_url_fragment u) = false /\
  (exists rest, u = (strip_url_fragment u ++ rest)%string /\
                (rest = EmptyString \/ exists r, rest = String "#" r)) /\
  strip_url_fragment (strip_url_fragment u) = strip_url_fragment u.
Proof.
  split_and!.
  - apply strip_url_fragment_no_hash.
  - apply strip_url_fragment_prefix.
  - apply strip_url_fragment_fixed, strip_url_fragment_no_hash.
Qed.

(** X14: the links a page adds to the frontier are no more than
    [count_internal_pages] counts among its anchors, which is no more than
    the anchors themselves; a failed anchor query counts as none. *)
Theorem internal_links_bounded (url : string) (dom : Dom) :
  (size (list_to_set (C := gset string) (internal_links url dom))
   <= count_internal_pages (elements (get_all_links dom)) url)%nat /\
  (count_internal_pages (elements (get_all_links dom)) url
   <= size (get_all_links dom))%nat /\
  (q_links dom = None ->
   count_internal_pages (elements (get_all_links dom)) url = 0%nat).
Proof.
  unfold count_internal_pages, internal_links. split_and!.
  - etransitivity; [apply size_list_to_set_le|]. rewrite length_map. reflexivity.
  - apply filter_length_le.
  - intros H. unfold get_all_links. rewrite H. rewrite elements_empty. reflexivity.
Qed.

(** X15: a larger count never gets a smaller package. *)
Theorem recommended_pricing_package_monotone (a b : Z) :
  a <= b ->
  exists ra rb,
    package_rank (recommended_pricing_package a) = Some ra /\
    package_rank (recommended_pricing_package b) = Some rb /\
    (ra <= rb)%nat.
Proof.
  intros H. unfold recommended_pricing_package.
  destruct (Z.ltb_spec a 50), (Z.ltb_spec b 50), (Z.ltb_spec a 200),
    (Z.ltb_spec b 200); try lia;
    eexists _, _; (split_and!; [reflexivity | reflexivity | lia]).
Qed.

Lemma recommended_pricing_package_monotone_witness :
  exists ra rb,
    package_rank (recommended_pricing_package 49) = Some ra /\
    package_rank (recommended_pricing_package 200) = Some rb /\
    (ra <= rb)%nat.
Proof. apply (recommended_pricing_package_monotone 49 200). lia. Defined.

Lemma resolve_crawl_delay_directive_witness :
  resolve_crawl_delay MoreSites.slow Sites.home = 10.
Proof.
  apply (resolve_crawl_delay_directive MoreSites.slow Sites.home
           ("User-agent: *" ++ String "010" "Crawl-delay: 10" ++ String "010" "")
           "Crawl-delay: 10" " 10" 10); reflexivity.
Defined.

(** ** The handler *)

Lemma small_handled :
  lambda_handler MoreSites.small MoreSites.crm pop_first 10 MoreSites.deal_event
                 fresh_process
  = Some (mkInvocation (mkResponse 200 (RecommendedPackage "Core Setup"))
                       [CrmGet (JInt 7); CrmPatch (JInt 7) "Core Setup"]
                       (mkProcess MoreSites.small_pages)).
Proof. vm_compute. reflexivity. Qed.

(** X16: the CRM is written to exactly when a package is recommended, once
    and with that package.  A package is recommended only after the CRM
    answered 200 with a deal holding a text under [properties],
    [Current site], and the crawl of that site returned at least five pages
    and files, the package being the one for their number; a failure of the
    write changes nothing of the response. *)
Theorem lambda_handler_write_back
    (W : World) (crm : json -> crm_result) (pop : nat -> gset string -> string)
    (fuel : nat) (event : list (string * json)) (proc : process)
    (inv : invocation) :
  lambda_handler W crm pop fuel event proc = Some inv ->
  match body (inv_response inv) with
  | RecommendedPackage package =>
      statusCode (inv_response inv) = 200 /\
      exists deal_id deal_data properties site call pages files,
        dict_get event "deal_id" = Some deal_id /\
        crm deal_id = CrmResponse 200 (Some deal_data) /\
        subscript deal_data "properties" = Some properties /\
        subscript properties "Current site" = Some (JStr site) /\
        crawl_website W pop fuel site None proc = Some (call, inv_process inv) /\
        call_outcome call = Returned pages files /\
        5 <= Z.of_nat (size pages + size files) /\
        package = recommended_pricing_package (Z.of_nat (size pages + size files)) /\
        inv_crm inv = [CrmGet deal_id; CrmPatch deal_id package]
  | Text _ | Message _ =>
      forall deal_id package, ~ In (CrmPatch deal_id package) (inv_crm inv)
  end.
Proof.
  unfold lambda_handler. intros H.
  destruct (dict_get event "deal_id") as [deal_id|] eqn:Hd; cbn [truthy negb] in H.
  2: { injection H as <-. cbn. intros ? ? []. }
  destruct (truthy deal_id); cbn [negb] in H.
  2: { injection H as <-. cbn. intros ? ? []. }
  destruct (truthy (fetch_current_site_url_from_hubspot crm deal_id)) eqn:Ht;
    cbn [negb] in H.
  2: { injection H as <-. cbn. intros ? ? [|[]]. discriminate. }
  destruct (fetch_current_site_url_from_hubspot crm deal_id) as [| | | |site| |] eqn:Hf;
    try (injection H as <-; cbn; intros ? ? [|[]]; discriminate).
  destruct (crawl_website W pop fuel site None proc) as [[call proc']|] eqn:Hc;
    [|discriminate].
  destruct (call_outcome call) as [pages files|e] eqn:Ho.
  2: { injection H as <-. cbn. intros ? ? [|[]]. discriminate. }
  destruct (Z.ltb_spec (Z.of_nat (size pages + size files)) 5) as [Hlt|Hge].
  { injection H as <-. cbn. intros ? ? [|[]]. discriminate. }
  injection H as <-. cbn [inv_response body statusCode inv_crm inv_process].
  split; [reflexivity|].
  unfold fetch_current_site_url_from_hubspot in Hf.
  destruct (crm deal_id) as [|status decoded] eqn:Hcrm; [discriminate|].
  destruct (Z.eqb_spec status 200) as [->|]; [|discriminate].
  destruct decoded as [deal_data|]; [|discriminate].
  destruct (subscript deal_data "properties") as [properties|] eqn:Hp; [|discriminate].
  destruct (subscript properties "Current site") as [v|] eqn:Hs; [|discriminate].
  subst v.
  exists deal_id, deal_data, properties, site, call, pages, files.
  split_and!; auto.
Qed.

Lemma lambda_handler_write_back_witness :
  statusCode (mkResponse 200 (RecommendedPackage "Core Setup")) = 200 /\
  exists deal_id deal_data properties site call pages files,
    dict_get MoreSites.deal_event "deal_id" = Some deal_id /\
    MoreSites.crm deal_id = CrmResponse 200 (Some deal_data) /\
    subscript deal_data "properties" = Some properties /\
    subscript properties "Current site" = Some (JStr site) /\
    crawl_website MoreSites.small pop_first 10 site None fresh_process
      = Some (call, mkProcess MoreSites.small_pages) /\
    call_outcome call = Returned pages files /\
    5 <= Z.of_nat (size pages + size files) /\
    "Core Setup" = recommended_pricing_package (Z.of_nat (size pages + size files)) /\
    [CrmGet (JInt 7); CrmPatch (JInt 7) "Core Setup"]
      = [CrmGet deal_id; CrmPatch deal_id "Core Setup"].
Proof.
  apply (lambda_handler_write_back MoreSites.small MoreSites.crm pop_first 10
           MoreSites.deal_event fresh_process _ small_handled).
Defined.

(** X17: the handler answers 400 exactly when the event has no deal id
    (or a falsy one) or the CRM gave no site URL (or a falsy one); it then
    leaves the process as it was, and without a deal id it does not call
    the CRM at all. *)
Theorem lambda_handler_client_errors
    (W : World) (crm : json -> crm_result) (pop : nat -> gset string -> string)
    (fuel : nat) (event : list (string * json)) (proc : process)
    (inv : invocation) :
  let deal_id :=
    match dict_get event "deal_id" with
    | Some v => v
    | None => JNull
    end in
  lambda_handler W crm pop fuel event proc = Some inv ->
  (statusCode (inv_response inv) = 400 <->
   truthy deal_id = false \/
   truthy (fetch_current_site_url_from_hubspot crm deal_id) = false) /\
  (statusCode (inv_response inv) = 400 -> inv_process inv = proc) /\
  (truthy deal_id = false -> inv_crm inv = []).
Proof.
  intros deal_id. unfold lambda_handler. fold deal_id. intros H.
  destruct (truthy deal_id); cbn [negb] in H.
  2: { injection H as <-. cbn. split_and!; auto. split; auto. }
  destruct (truthy (fetch_current_site_url_from_hubspot crm deal_id)) eqn:Ht;
    cbn [negb] in H.
  2: { injection H as <-. cbn. split_and!; auto; [split; auto | discriminate]. }
  assert (Hno : statusCode (inv_response inv) <> 400).
  { destruct (fetch_current_site_url_from_hubspot crm deal_id);
      try (injection H as <-; cbn; lia).
    destruct (crawl_website W pop fuel s None proc) as [[call proc']|];
      [|discriminate].
    destruct (call_outcome call); [|injection H as <-; cbn; lia].
    destruct (_ <? 5); injection H as <-; cbn; lia. }
  split_and!.
  - split; [contradiction | intros [?|?]; discriminate].
  - contradiction.
  - discriminate.
Qed.

Lemma lambda_handler_client_errors_witness :
  (statusCode (mkResponse 400 (Text "deal_id not provided")) = 400 <->
   truthy JNull = false \/
   truthy (fetch_current_site_url_from_hubspot MoreSites.crm JNull) = false) /\
  (statusCode (mkResponse 400 (Text "deal_id not provided")) = 400 ->
   fresh_process = fresh_process) /\
  (truthy JNull = false -> @nil crm_event = []).
Proof.
  apply (lambda_handler_client_errors MoreSites.small MoreSites.crm pop_first 10
           [] fresh_process
           (mkInvocation (mkResponse 400 (Text "deal_id not provided")) []
                         fresh_process)).
  reflexivity.
Defined.

(** X18: in a process whose default visited set already holds the site,
    as after an earlier invocation for it, the handler finds nothing: it
    answers 200 with the request for manual verification and does not write
    to the CRM. *)
Theorem lambda_handler_in_warm_process
    (W : World) (crm : json -> crm_result) (pop : nat -> gset string -> string)
    (fuel : nat) (event : list (string * json)) (proc : process)
    (deal_id : json) (site : string) (b : bool) :
  valid_pop pop ->
  launch_ok W = true ->
  dict_get event "deal_id" = Some deal_id ->
  truthy deal_id = true ->
  fetch_current_site_url_from_hubspot crm deal_id = JStr site ->
  site <> EmptyString ->
  is_login_redirect (strip_url_fragment site) = inr b ->
  strip_url_fragment site ∈ default_visited_urls proc ->
  (2 <= fuel)%nat ->
  lambda_handler W crm pop fuel event proc
  = Some (mkInvocation
            (mkResponse 200
               (Message "Total count is below threshold or website inaccessible. Manual verification required."))
            [CrmGet deal_id] proc).
Proof.
  intros Hpop Hlaunch Hd Ht Hf Hne Hl Hv Hfuel.
  unfold lambda_handler. rewrite Hd, Ht, Hf. cbn [negb truthy].
  destruct (String.eqb_spec site EmptyString) as [|_]; [contradiction|].
  cbn [negb].
  rewrite (crawl_website_one_iteration W pop fuel site None proc
             (mkState ∅ ∅ ({[site]} ∖ {[site]}) (default_visited_urls proc)
                      (trace (init_state W site (default_visited_urls proc)))));
    auto.
  - cbn [call_outcome pages_set files_set visited_urls].
    rewrite size_empty. cbn. destruct proc. reflexivity.
  - eapply loop_body_skip; eauto.
  - apply (difference_diag_L (C := gset string)).
Qed.

Lemma lambda_handler_in_warm_process_witness :
  lambda_handler MoreSites.small MoreSites.crm pop_first 10 MoreSites.deal_event
                 (mkProcess MoreSites.small_pages)
  = Some (mkInvocation
            (mkResponse 200
               (Message "Total count is below threshold or website inaccessible. Manual verification required."))
            [CrmGet (JInt 7)] (mkProcess MoreSites.small_pages)).
Proof.
  apply (lambda_handler_in_warm_process MoreSites.small MoreSites.crm pop_first 10
           MoreSites.deal_event (mkProcess MoreSites.small_pages) (JInt 7)
           Sites.home false).
  - exact pop_first_valid.
  - reflexivity.
  - reflexivity.
  - reflexivity.
  - reflexivity.
  - discriminate.
  - vm_compute. reflexivity.
  - unfold MoreSites.small_pages. cbn [default_visited_urls].
    apply elem_of_union. left. apply elem_of_singleton_2. reflexivity.
  - lia.
Defined.

(** ** A crawl delay beyond the floats *)

Lemma impatient_crawl :
  crawl_website MoreSites.impatient pop_first 10 Sites.home None fresh_process
  = Some (MoreSites.impatient_call, mkProcess {[Sites.home]}).
Proof. vm_compute. reflexivity. Qed.

Lemma impatient_delay :
  resolve_crawl_delay MoreSites.impatient Sites.home = 10 ^ 400 /\
  sleep_raises (resolve_crawl_delay MoreSites.impatient Sites.home) = true.
Proof. split; vm_compute; reflexivity. Qed.

Lemma reached_sleep_overflow
    (W : World) (url : string) (crawl_delay : Z) (visited0 : gset string)
    (st : crawl_state) :
  sleep_raises crawl_delay = true ->
  loop_reaches W url crawl_delay (init_state W url visited0) st ->
  urls_to_crawl st ⊆ {[url]} /\
  pages_set st ⊆ {[strip_url_fragment url]} /\
  files_set st ⊆ {[strip_url_fragment url]} /\
  forallb (fun e => match e with Sleep _ => false | _ => true end) (trace st) = true.
Proof.
  intros Hsr H. remember (init_state W url visited0) as st0 eqn:E.
  induction H as [|st1 popped st' st'' _ IH Hin Hc Hb].
  - subst. cbn [init_state urls_to_crawl pages_set files_set trace].
    split_and!; [reflexivity | apply empty_subseteq | apply empty_subseteq |
                 reflexivity].
  - destruct (IH E) as (Hf & Hp & Hfl & Ht).
    assert (Hpop : popped = url)
      by (apply (elem_of_singleton_1 (C := gset string)), Hf, Hin).
    pose proof (loop_body_step _ _ _ _ _ _ Hb) as Hstep. rewrite Hsr in Hstep.
    subst popped.
    destruct Hstep as [[-> _]|[(_ & _ & _ & ->)|(_ & _ & _ & ->)]];
      cbn [urls_to_crawl pages_set files_set trace map List.filter].
    + split_and!; auto. etransitivity; [apply difference_subseteq | exact Hf].
    + split_and!; auto.
      * etransitivity; [apply difference_subseteq | exact Hf].
      * apply union_least; [reflexivity | exact Hfl].
    + rewrite !union_empty_r_gset. split_and!.
      * etransitivity; [apply difference_subseteq | exact Hf].
      * apply union_least; [reflexivity | exact Hp].
      * exact Hfl.
      * unfold nav_sleep. rewrite Hsr, !forallb_app, Ht.
        destruct (page_goto W _); reflexivity.
Qed.

(** X19: when the resolved crawl delay is a positive integer that no
    float holds, [asyncio.sleep] raises inside the [try] after every
    navigation that answers.  Nothing is then extracted from any page: a
    crawl that returns has at most the stripped seed as its page or as its
    file, and it never sleeps. *)
Theorem crawl_with_overflowing_delay
    (W : World) (pop : nat -> gset string -> string) (fuel : nat) (url : string)
    (visited_arg : option (gset string)) (proc proc' : process) (r : call_result)
    (pages files : gset string) :
  valid_pop pop ->
  sleep_raises (resolve_crawl_delay W url) = true ->
  crawl_website W pop fuel url visited_arg proc = Some (r, proc') ->
  call_outcome r = Returned pages files ->
  pages ⊆ {[strip_url_fragment url]} /\
  files ⊆ {[strip_url_fragment url]} /\
  forall seconds, ~ In (Sleep seconds) (call_trace r).
Proof.
  intros Hpop Hsr H Ho.
  destruct (crawl_website_returned W pop fuel url visited_arg proc proc' r
              pages files Hpop H Ho)
    as (st & Hr & -> & -> & _ & Ht & _ & _).
  destruct (reached_sleep_overflow _ _ _ _ _ Hsr Hr) as (_ & Hp & Hf & Hs).
  split_and!; [exact Hp | exact Hf |].
  intros seconds Hin. rewrite Ht in Hin. apply in_app_or in Hin as [Hin|[Hin|[]]];
    [|discriminate].
  rewrite forallb_forall in Hs. specialize (Hs _ Hin). discriminate.
Qed.

Lemma crawl_with_overflowing_delay_witness :
  ({[Sites.home]} : gset string) ⊆ {[strip_url_fragment Sites.home]} /\
  (∅ : gset string) ⊆ {[strip_url_fragment Sites.home]} /\
  forall seconds, ~ In (Sleep seconds) (call_trace MoreSites.impatient_call).
Proof.
  apply (crawl_with_overflowing_delay MoreSites.impatient pop_first 10 Sites.home
           None fresh_process (mkProcess {[Sites.home]}) MoreSites.impatient_call).
  - exact pop_first_valid.
  - apply impatient_delay.
  - exact impatient_crawl.
  - reflexivity.
Defined.
